(* ===================================================================== *)
(* popcorn / spectral_imaging: material decomposition and registration    *)
(*                                                                        *)
(* A shallow embedding of                                                 *)
(*   src/popcorn/spectral_imaging/material_decomposition.py               *)
(*   src/popcorn/spectral_imaging/registration.py                         *)
(*   src/popcorn/phase_retrieval/pagailleIO.py                            *)
(* and the properties of the specification that concern them.             *)
(*                                                                        *)
(* Arithmetic.  The decomposition is linear algebra on numpy float64      *)
(* arrays; it is embedded in exact rational arithmetic (MathComp's rat),  *)
(* so a cast between float widths is the identity.  The rotation matrix   *)
(* of registration.py divides by a norm that can be zero: that function   *)
(* is embedded on IEEE binary64 numbers (PrimFloat), where 0/0 is nan as  *)
(* in numpy.                                                              *)
(* ===================================================================== *)

From Stdlib Require Import Floats String Ascii.
From HB Require Import structures.
From mathcomp Require Import boot order algebra.
From mathcomp Require Import ring lra.
Set Implicit Arguments.
Unset Strict Implicit.
Unset Printing Implicit Defensive.
Import GRing.Theory Num.Theory.
Local Open Scope ring_scope.

(* --------------------------------------------------------------------- *)
(* Exceptions and results                                                 *)
(* --------------------------------------------------------------------- *)

(* The first five are the Python and numpy exceptions that the embedded
   code can raise.  The last three are the error kinds named by the
   specification (section 7); no path of the source constructs them. *)
Inductive exn : Type :=
  | ValueError
  | IndexError
  | TypeError
  | LinAlgError
  | ZeroDivisionError
  | ShapeMismatch
  | InsufficientEnergies
  | EmptyMask.

Inductive result (A : Type) : Type :=
  | Ok of A
  | Raise of exn.
Arguments Raise {A} _.

Definition is_ok (A : Type) (r : result A) : bool :=
  if r is Ok _ then true else false.

Definition rmap (A B : Type) (f : A -> B) (r : result A) : result B :=
  match r with Ok a => Ok (f a) | Raise e => Raise e end.

(* --------------------------------------------------------------------- *)
(* numpy arrays                                                           *)
(* --------------------------------------------------------------------- *)

(* A two-dimensional array whose shape is only known at run time. *)
Record ndarray2 : Type := Array2 {
  nrows : nat;
  ncols : nat;
  cells : 'M[rat]_(nrows, ncols)
}.

(* a[i, j] for indices in range, 0 otherwise (only used in range). *)
Definition item (a : ndarray2) (i j : nat) : rat :=
  match insub i, insub j with
  | Some i', Some j' => cells a i' j'
  | _, _ => 0
  end.

Definition array2_of_seq (r c : nat) (s : seq (seq rat)) : ndarray2 :=
  @Array2 r c (\matrix_(i, j) nth 0 (nth [::] s i) j).

(* numpy broadcasting of one axis: a source axis of length d fits a target
   axis of length t when d = t or d = 1. *)
Definition axis_fits (d t : nat) : bool := (d == t) || (d == 1%N).

Definition broadcastable (a : ndarray2) (r c : nat) : bool :=
  axis_fits (nrows a) r && axis_fits (ncols a) c.

Definition broadcast_to (r c : nat) (a : ndarray2) : 'M[rat]_(r, c) :=
  \matrix_(i, j) item a (if nrows a == 1%N then 0%N else i)
                        (if ncols a == 1%N then 0%N else j).

(* The shape of one energy image: 2-D or 3-D, as the docstring of
   decomposition_equation_resolution has it. *)
Inductive spatial_shape : Type :=
  | Shape2 of nat & nat
  | Shape3 of nat & nat & nat.

(* image.size *)
Definition nvox (sh : spatial_shape) : nat :=
  match sh with
  | Shape2 h w => (h * w)%N
  | Shape3 d h w => (d * h * w)%N
  end.

(* .astype(np.float32): exact arithmetic has one width. *)
Definition astype_float32 (x : rat) : rat := x.

(* The literal 1000.0 of the conversion to g/L. *)
Definition thousand : rat := 1000%:Q.

(* ===================================================================== *)
(* material_decomposition.py                                              *)
(* ===================================================================== *)

Module Decomposition.

(* The state of solution_matrix along the per-voxel loop of the
   least-squares branch: None before the first voxel, the 1-D solution of
   the first voxel after it, a 2-D stack of rows from the second on. *)
Inductive solution_acc (P : nat) : Type :=
  | NoSolution
  | Solution1D of 'rV[rat]_P
  | Solution2D of seq 'rV[rat]_P.
Arguments NoSolution {P}.

Section Resolution.

(* The linear algebra of numpy is not code of this repository:
   linalg_solve a b stands for np.linalg.solve on a stack of copies of the
   square matrix a and the stack b of right-hand sides (one row per voxel),
   linalg_lstsq a v for the solution np.linalg.lstsq(a, v, rcond=None)[0]. *)
Variable linalg_solve :
  forall n V : nat, 'M[rat]_n -> 'M[rat]_(V, n) -> result 'M[rat]_(V, n).
Variable linalg_lstsq :
  forall m n : nat, 'M[rat]_(m, n) -> 'rV[rat]_m -> 'rV[rat]_n.

Variables (K P : nat) (sh : spatial_shape).

(* images: K energy images, row e is images[e].flatten();
   densities: one density per material. *)
Variable images : 'M[rat]_(K, nvox sh).
Variable densities : 'rV[rat]_P.
Variable material_attenuations : ndarray2.
Variable volume_fraction_hypothesis : bool.

(* lines 299-301: np.ones((K + c, P)) with rows 0..K-1 overwritten. *)
Definition system_2d_matrix : 'M[rat]_(K + volume_fraction_hypothesis, P) :=
  col_mx (broadcast_to K P material_attenuations) (const_mx 1).

(* lines 302-305: np.ones((K + c, V)), row e overwritten by image e, then
   transposed: one row per voxel. *)
Definition vector_2d_matrix : 'M[rat]_(nvox sh, K + volume_fraction_hypothesis) :=
  (col_mx images (const_mx 1))^T.

(* lines 319-326, one turn of the loop. *)
Definition lstsq_step (acc : solution_acc P)
    (vector : 'rV[rat]_(K + volume_fraction_hypothesis)) : solution_acc P :=
  let solution_vector := linalg_lstsq system_2d_matrix vector in
  match acc with
  | NoSolution => Solution1D solution_vector
  | Solution1D first => Solution2D [:: first; solution_vector]
  | Solution2D rows => Solution2D (rcons rows solution_vector)
  end.

(* lines 312-326 *)
Definition lstsq_loop : solution_acc P :=
  foldl lstsq_step NoSolution
        [seq row v vector_2d_matrix | v <- enum 'I_(nvox sh)].

(* The least-squares solution of every voxel, one row per voxel: what the
   loop has stacked when it ends (with two voxels or more). *)
Definition lstsq_solution : 'M[rat]_(nvox sh, P) :=
  \matrix_(v, m)
     (linalg_lstsq system_2d_matrix (row v vector_2d_matrix)) 0 m.

(* lines 333-337 on a 2-D solution_matrix (one row per voxel): column m is
   scaled by densities[m] * 1000, and reshaped into map m. *)
Definition scale_solution (solution_matrix : 'M[rat]_(nvox sh, P))
    : 'M[rat]_(P, nvox sh) :=
  \matrix_(m, v)
     astype_float32 (solution_matrix v m * densities 0 m * thousand).

Definition stack_rows (rows : seq 'rV[rat]_P) : 'M[rat]_(nvox sh, P) :=
  \matrix_(v, m) (nth 0 rows v) 0 m.

(* lines 327-337 after the least-squares loop.  With no material the loop
   over range(len(densities)) has no turn and the zeros are returned; else
   solution_matrix[:, 0] is evaluated first: on None it is a TypeError, on
   a 1-D array an IndexError. *)
Definition concentration_of_acc (acc : solution_acc P)
    : result 'M[rat]_(P, nvox sh) :=
  if P == 0%N then Ok (const_mx 0)
  else match acc with
       | NoSolution => Raise TypeError
       | Solution1D _ => Raise IndexError
       | Solution2D rows => Ok (scale_solution (stack_rows rows))
       end.

Definition decomposition_equation_resolution
    : result 'M[rat]_(P, nvox sh) :=
  (* line 301: the assignment broadcasts material_attenuations *)
  if ~~ broadcastable material_attenuations K P then Raise ValueError
  (* line 302: images[0, :] *)
  else if K == 0%N then Raise IndexError
  else
    match @eqP _ (K + volume_fraction_hypothesis)%N P with
    | ReflectT e =>
        match linalg_solve (castmx (e, erefl P) system_2d_matrix)
                           (castmx (erefl (nvox sh), e) vector_2d_matrix) with
        | Ok solution_matrix => Ok (scale_solution solution_matrix)
        | Raise err => Raise err
        end
    | ReflectF _ => concentration_of_acc lstsq_loop
    end.

End Resolution.

(* np.linalg.solve (numpy 1.x: b with one dimension less than a is a stack
   of vectors): the solution of a x = b for every row b of the stack;
   LinAlgError when a is singular. *)
Definition np_solve (n V : nat) (a : 'M[rat]_n) (b : 'M[rat]_(V, n))
    : result 'M[rat]_(V, n) :=
  if (V == 0%N) || (a \in unitmx) then Ok (b *m (invmx a)^T)
  else Raise LinAlgError.

(* np.linalg.lstsq(a, v)[0]: the least-squares solution of minimal norm,
   x = w a with w a a^T a = v a (rows for vectors). *)
Definition np_lstsq (m n : nat) (a : 'M[rat]_(m, n)) (v : 'rV[rat]_m)
    : 'rV[rat]_n :=
  v *m a *m pinvmx (a *m a^T *m a) *m a.

Definition solve : forall (K P : nat) (sh : spatial_shape),
    'M[rat]_(K, nvox sh) -> 'rV[rat]_P -> ndarray2 -> bool ->
    result 'M[rat]_(P, nvox sh) :=
  decomposition_equation_resolution np_solve np_lstsq.

(* Undoing the scaling of the maps: a division by densities[m] * 1000. *)
Definition unscale (P : nat) (sh : spatial_shape) (densities : 'rV[rat]_P)
    (maps : 'M[rat]_(P, nvox sh)) : 'M[rat]_(P, nvox sh) :=
  \matrix_(m, v) (maps m v / (densities 0 m * thousand)).

(* The densities with the density of material i doubled, and the maps with
   map i doubled. *)
Definition double_density (P : nat) (i : 'I_P) (densities : 'rV[rat]_P)
    : 'rV[rat]_P :=
  \row_m (if m == i then 2%:Q * densities 0 m else densities 0 m).

Definition double_map (P : nat) (sh : spatial_shape) (i : 'I_P)
    (maps : 'M[rat]_(P, nvox sh)) : 'M[rat]_(P, nvox sh) :=
  \matrix_(m, v) (if m == i then 2%:Q * maps m v else maps m v).

(* An attenuation matrix whose shape is not (K, P). *)
Definition malformed (a : ndarray2) (K P : nat) : bool :=
  (nrows a != K) || (ncols a != P).

(* Sample inputs: an image of two voxels, arrays of ones, and the solution
   in which the first of two materials fills every voxel. *)
Definition two_voxels : spatial_shape := Shape2 1 2.

Definition ones (r c : nat) : 'M[rat]_(r, c) := const_mx 1.

Definition first_material (V : nat) : 'M[rat]_(V, 2) :=
  \matrix_(v, m) (if m == 0 then 1 else 0).

End Decomposition.

(* ===================================================================== *)
(* registration.py                                                        *)
(* ===================================================================== *)

Module Registration.

(* --------------------------------------------------------------------- *)
(* calculate_rotation_matrix_between_3d_vectors, on binary64 numbers      *)
(* --------------------------------------------------------------------- *)

Definition vec3 : Type := (float * float * float)%type.
Definition mat3 : Type := (vec3 * vec3 * vec3)%type.

Definition vmap (f : float -> float) (v : vec3) : vec3 :=
  let '(x, y, z) := v in (f x, f y, f z).

Definition vzip (f : float -> float -> float) (u v : vec3) : vec3 :=
  let '(a, b, c) := u in let '(x, y, z) := v in (f a x, f b y, f c z).

Definition mmap (f : float -> float) (m : mat3) : mat3 :=
  let '(r0, r1, r2) := m in (vmap f r0, vmap f r1, vmap f r2).

Definition mzip (f : float -> float -> float) (m n : mat3) : mat3 :=
  let '(r0, r1, r2) := m in let '(s0, s1, s2) := n in
  (vzip f r0 s0, vzip f r1 s1, vzip f r2 s2).

(* np.dot on two vectors *)
Definition dot (u v : vec3) : float :=
  let '(a, b, c) := u in let '(x, y, z) := v in
  (a * x + b * y + c * z)%float.

(* np.linalg.norm on a vector *)
Definition norm (v : vec3) : float := PrimFloat.sqrt (dot v v).

(* np.cross *)
Definition cross (u v : vec3) : vec3 :=
  let '(a, b, c) := u in let '(x, y, z) := v in
  (b * z - c * y, c * x - a * z, a * y - b * x)%float.

Definition col (j : nat) (m : mat3) : vec3 :=
  let pick (v : vec3) : float :=
    let '(x, y, z) := v in
    match j with 0%N => x | 1%N => y | _ => z end in
  let '(r0, r1, r2) := m in (pick r0, pick r1, pick r2).

(* a.dot(b) on two 3x3 matrices *)
Definition matmul (m n : mat3) : mat3 :=
  let line (r : vec3) : vec3 :=
    (dot r (col 0 n), dot r (col 1 n), dot r (col 2 n)) in
  let '(r0, r1, r2) := m in (line r0, line r1, line r2).

(* np.eye(3) *)
Definition eye3 : mat3 :=
  ((1, 0, 0), (0, 1, 0), (0, 0, 1))%float.

Definition calculate_rotation_matrix_between_3d_vectors
    (moving_vector ref_vector : vec3) : mat3 :=
  let moving_vector :=
    vmap (fun x => x / norm moving_vector)%float moving_vector in
  let ref_vector := vmap (fun x => x / norm ref_vector)%float ref_vector in
  let scalar := dot moving_vector ref_vector in
  let '(c0, c1, c2) := cross moving_vector ref_vector in
  let normalized := norm (c0, c1, c2) in
  let trans_matrix : mat3 :=
    ((0, - c2, c1), (c2, 0, - c0), (- c1, c0, 0))%float in
  let factor := ((1 - scalar) / (normalized * normalized))%float in
  mzip PrimFloat.add
       (mzip PrimFloat.add eye3 trans_matrix)
       (mmap (fun x => x * factor)%float (matmul trans_matrix trans_matrix)).

Definition all_nan (m : mat3) : bool :=
  let '((a, b, c), (d, e, f), (g, h, i)) := m in
  [&& is_nan a, is_nan b, is_nan c, is_nan d, is_nan e,
      is_nan f, is_nan g, is_nan h & is_nan i].

Definition mat3_eqb (m n : mat3) : bool :=
  let same (x y : float) : float :=
    if PrimFloat.eqb x y then 1%float else 0%float in
  let '((a, b, c), (d, e, f), (g, h, i)) := mzip same m n in
  [&& PrimFloat.eqb a 1, PrimFloat.eqb b 1, PrimFloat.eqb c 1,
      PrimFloat.eqb d 1, PrimFloat.eqb e 1, PrimFloat.eqb f 1,
      PrimFloat.eqb g 1, PrimFloat.eqb h 1 & PrimFloat.eqb i 1].

(* --------------------------------------------------------------------- *)
(* Loops run on fuel: None is "out of fuel", never a result of the code   *)
(* --------------------------------------------------------------------- *)

Definition bind (A B : Type) (m : option (result A))
    (f : A -> option (result B)) : option (result B) :=
  match m with
  | None => None
  | Some (Raise e) => Some (Raise e)
  | Some (Ok a) => f a
  end.

Notation "m >>= f" := (bind m f) (at level 58, left associativity).

(* --------------------------------------------------------------------- *)
(* count_the_needed_translation_for_black_slices                          *)
(* --------------------------------------------------------------------- *)

(* A z-slice image[n, :, :], flattened; a volume is its list of slices. *)
Definition slice2d : Type := seq rat.
Definition image3d : Type := seq slice2d.

(* image[n, :, :] for a Python integer n: a negative n counts from the end *)
Definition getitem (image : image3d) (n : int) : result slice2d :=
  match n with
  | Posz i =>
      if (i < size image)%N then Ok (nth [::] image i) else Raise IndexError
  | Negz i =>
      if (i < size image)%N then Ok (nth [::] image (size image - i.+1))
      else Raise IndexError
  end.

(* (slice_of_image == 0).sum() > slice_of_image.size * 0.5 *)
Definition mostly_zero (slice_of_image : slice2d) : bool :=
  (size slice_of_image < (count (pred1 (0 : rat)) slice_of_image).*2)%N.

(* lines 183-186 *)
Fixpoint front_loop (image : image3d) (fuel : nat) (front_offset : nat)
    (slice_of_image : slice2d) (nb_slice : int) : option (result nat) :=
  if mostly_zero slice_of_image && (nb_slice < (size image)%:Z) then
    if fuel is fuel'.+1 then
      match getitem image nb_slice with
      | Ok s => front_loop image fuel' front_offset.+1 s (nb_slice + 1)
      | Raise e => Some (Raise e)
      end
    else None
  else Some (Ok front_offset).

(* lines 191-194 *)
Fixpoint bottom_loop (image : image3d) (fuel : nat) (bottom_offset : nat)
    (slice_of_image : slice2d) (nb_slice : int) : option (result nat) :=
  if mostly_zero slice_of_image && (0 <= nb_slice) then
    if fuel is fuel'.+1 then
      match getitem image nb_slice with
      | Ok s => bottom_loop image fuel' bottom_offset.+1 s (nb_slice - 1)
      | Raise e => Some (Raise e)
      end
    else None
  else Some (Ok bottom_offset).

Definition count_the_needed_translation_for_black_slices_fuel
    (fuel : nat) (image : image3d) : option (result (nat * nat)) :=
  Some (getitem image 0) >>= fun s0 =>
  front_loop image fuel 0 s0 0 >>= fun front_offset =>
  let nb_slice := (size image)%:Z - 1 in
  Some (getitem image nb_slice) >>= fun s1 =>
  bottom_loop image fuel 0 s1 nb_slice >>= fun bottom_offset =>
  Some (Ok (front_offset, bottom_offset)).

(* Each loop makes at most image.shape[0] + 1 tests. *)
Definition count_the_needed_translation_for_black_slices
    (image : image3d) : option (result (nat * nat)) :=
  count_the_needed_translation_for_black_slices_fuel (size image).+1 image.

(* What the docstring announces: the number of slices with too much
   blackness at the beginning and at the end. *)
Definition leading_black (image : image3d) : nat :=
  find (fun s => ~~ mostly_zero s) image.

Definition trailing_black (image : image3d) : nat :=
  find (fun s => ~~ mostly_zero s) (rev image).

(* --------------------------------------------------------------------- *)
(* straight_throat_rotation, lines 332-343                                *)
(* --------------------------------------------------------------------- *)

Section ThroatOffset.

(* compute_3d_rotation(image, rotation_matrix, throat_coordinates,
   [0, 0, t]) as a function of the z translation t: SimpleITK resamples. *)
Variable compute_3d_rotation : rat -> image3d.

Definition straight_throat_rotation_offsets : option (result (rat * rat)) :=
  let first_try_image := compute_3d_rotation 0 in
  count_the_needed_translation_for_black_slices first_try_image
  >>= fun first =>
  let first_offset : rat := (first.1%:Q - first.2%:Q) / 2%:Q in
  let second_try_image := compute_3d_rotation first_offset in
  count_the_needed_translation_for_black_slices second_try_image
  >>= fun second =>
  let final_offset : rat := (second.1%:Q - second.2%:Q) / 2%:Q + first_offset in
  Some (Ok (first_offset, final_offset)).

End ThroatOffset.

(* --------------------------------------------------------------------- *)
(* retrieve_throat_centroid                                               *)
(* --------------------------------------------------------------------- *)

(* A 2-D mask, row by row; true is foreground. *)
Definition mask2d : Type := seq (seq bool).

(* Modelled on scikit-image (label and regionprops are not code of this
   repository): label numbers the connected regions of the foreground
   (8-connectivity) in raster order and regionprops lists them by label,
   so regions[0] is the region of the first foreground pixel. *)
Definition foreground (mask : mask2d) : seq (nat * nat) :=
  flatten [seq [seq (r, c) | c <- iota 0 (size (nth [::] mask r))
                           & nth false (nth [::] mask r) c]
          | r <- iota 0 (size mask)].

Definition near (a b : nat) : bool := (a <= b.+1)%N && (b <= a.+1)%N.

Definition adjacent (p q : nat * nat) : bool :=
  near p.1 q.1 && near p.2 q.2.

Definition grow (pixels region : seq (nat * nat)) : seq (nat * nat) :=
  [seq q <- pixels | has (adjacent q) region].

Definition region_of (pixels : seq (nat * nat)) (p : nat * nat)
    : seq (nat * nat) :=
  iter (size pixels) (grow pixels) [:: p].

(* region.centroid: the mean (row, col) of the pixels of the region *)
Definition centroid (region : seq (nat * nat)) : rat * rat :=
  ((sumn [seq p.1 | p <- region])%:Q / (size region)%:Q,
   (sumn [seq p.2 | p <- region])%:Q / (size region)%:Q).

(* regionprops(label(mask)), as far as the source reads it: its first
   element when there is one. *)
Definition regionprops_label (mask : mask2d) : seq (seq (nat * nat)) :=
  let pixels := foreground mask in
  if pixels is p :: _ then [:: region_of pixels p] else [::].

(* a Python list index: s[n] for a non negative n *)
Definition list_getitem (A : Type) (s : seq A) (n : nat) : result A :=
  if nth None [seq Some x | x <- s] n is Some x then Ok x
  else Raise IndexError.

Definition retrieve_throat_centroid (mask : mask2d) : result (rat * rat) :=
  let regions := regionprops_label mask in
  rmap centroid (list_getitem regions 0).

(* A mask with no labelled region: no foreground pixel. *)
Definition empty_mask (mask : mask2d) : bool :=
  all (fun line => all (fun b => ~~ b) line) mask.

(* --------------------------------------------------------------------- *)
(* symmetry_based_registration                                            *)
(* --------------------------------------------------------------------- *)

(* skull_bounding_box: a numpy array of four integers,
   [x_min, x_max, y_min, y_max], indexed 0..3. *)
Record bounding_box : Type := Box {
  bb0 : int;
  bb1 : int;
  bb2 : int;
  bb3 : int
}.

Definition box_eqb (a b : bounding_box) : bool :=
  [&& bb0 a == bb0 b, bb1 a == bb1 b, bb2 a == bb2 b & bb3 a == bb3 b].

(* Arrays are passed by reference: the caller and the callee hold the
   address of one array in the heap. *)
Definition heap : Type := nat -> bounding_box.

Definition store (h : heap) (ref : nat) (b : bounding_box) : heap :=
  fun r => if r == ref then b else h r.

(* int(x): truncation towards zero *)
Definition python_int (x : rat) : int :=
  if 0 <= x then Num.floor x else Num.ceil x.

(* lines 362-365, on the array itself *)
Definition recenter (throat_x : rat) (b : bounding_box) : bounding_box :=
  if (bb1 b)%:~R - throat_x < throat_x - (bb0 b)%:~R then
    Box (bb0 b)
        (python_int ((bb0 b)%:~R + (throat_x - (bb0 b)%:~R) * 2%:Q))
        (bb2 b) (bb3 b)
  else
    Box (python_int ((bb1 b)%:~R - ((bb1 b)%:~R - throat_x) * 2%:Q))
        (bb1 b) (bb2 b) (bb3 b).

(* The throat x-coordinate is centered in the box. *)
Definition centered (throat_x : rat) (b : bounding_box) : bool :=
  throat_x - (bb0 b)%:~R == (bb1 b)%:~R - throat_x.

(* The four half arrays of one candidate angle (lines 398-406), flattened
   and voxel by voxel. *)
Record half_arrays : Type := Halves {
  left_half_image : seq rat;
  right_half_image : seq rat;
  left_half_skull : seq rat;
  right_half_skull : seq rat
}.

(* half_skull[half_image == 0] = 0 *)
Definition zero_where (half_image half_skull : seq rat) : seq rat :=
  [seq if p.1 == 0 then 0 else p.2 | p <- zip half_image half_skull].

(* lines 408-417: count and len(number_of_zeros[number_of_zeros == 0]) *)
Definition disagreement (hs : half_arrays) : nat * nat :=
  let left_skull := zero_where (left_half_image hs) (left_half_skull hs) in
  let right_skull := zero_where (right_half_image hs) (right_half_skull hs) in
  let subtraction := [seq p.1 - p.2 | p <- zip right_skull left_skull] in
  let count := count (fun x => x != 0) subtraction in
  let number_of_zeros :=
    [seq if (p.1 == 0) || (p.2 == 0) then 1 else 0 : rat
    | p <- zip (left_half_image hs) (right_half_image hs)] in
  (count, seq.count (pred1 0) number_of_zeros).

(* count / len(...): the division of two Python integers *)
Definition normalized_value (hs : half_arrays) : result rat :=
  let '(count, nonzero) := disagreement hs in
  if nonzero == 0%N then Raise ZeroDivisionError
  else Ok (count%:Q / nonzero%:Q).

Definition float_of_nat (n : nat) : float :=
  iter n (fun x => x + 1)%float 0%float.

(* float(k) *)
Definition float_of_int (k : int) : float :=
  match k with
  | Posz n => float_of_nat n
  | Negz n => (- float_of_nat n.+1)%float
  end.

(* math.pi *)
Definition math_pi : float := 0x1.921fb54442d18p+1%float.

(* line 386: float(-number_of_iterations + i) / 180 * math.pi *)
Definition angle_of (number_of_iterations i : nat) : float :=
  (float_of_int (- number_of_iterations%:Z + i%:Z) / 180 * math_pi)%float.

Record search_state : Type := SearchState {
  cross_correlation_list : seq rat;
  diff : rat;
  correct_angle : float
}.

Section Symmetry.

(* lines 388-406: the copies of image_to_study and skull_to_study rotated
   by the angle (SimpleITK), cropped with the box and split in halves. *)
Variable rotate_crop_split :
  bounding_box -> image3d -> image3d -> float -> half_arrays.

Variables (box : bounding_box) (image_to_study skull_to_study : image3d).
Variable number_of_iterations : nat.

(* lines 386-423, one turn of the loop *)
Definition search_step (st : result search_state) (i : nat)
    : result search_state :=
  match st with
  | Raise e => Raise e
  | Ok st =>
      let angle := angle_of number_of_iterations i in
      match normalized_value
              (rotate_crop_split box image_to_study skull_to_study angle) with
      | Raise e => Raise e
      | Ok value =>
          let scores := rcons (cross_correlation_list st) value in
          if value < diff st then Ok (SearchState scores value angle)
          else Ok (SearchState scores (diff st) (correct_angle st))
      end
  end.

(* lines 375-423: diff = 1, correct_angle = 0, then the loop over
   range(number_of_iterations * 2) *)
Definition symmetry_search : result search_state :=
  foldl search_step (Ok (SearchState [::] 1 0%float))
        (iota 0 (number_of_iterations * 2)).

End Symmetry.

Section Registration.

Variable rotate_crop_split :
  bounding_box -> image3d -> image3d -> float -> half_arrays.

(* The call symmetry_based_registration(image, skull, skull_bounding_box,
   throat_coordinates, number_of_iterations), where skull_bounding_box is
   the address of the caller's array and throat_x is
   throat_coordinates[0].  The result is the heap after the call and what
   the search found; the rotated and cropped arrays that are returned with
   the angle are SimpleITK's. *)
Definition symmetry_based_registration (h : heap)
    (image skull : image3d) (skull_bounding_box : nat) (throat_x : rat)
    (number_of_iterations : nat) : heap * option (result search_state) :=
  (* lines 362-365 *)
  let h := store h skull_bounding_box
                 (recenter throat_x (h skull_bounding_box)) in
  (h,
   (* lines 367-373 *)
   count_the_needed_translation_for_black_slices image >>= fun offsets =>
   let front_slices_to_delete := offsets.1 in
   let bottom_slices_to_delete := offsets.2 in
   let study (a : image3d) : image3d :=
     if ((front_slices_to_delete + bottom_slices_to_delete).*2
         < size image)%N
     then drop front_slices_to_delete
               (take (size image - bottom_slices_to_delete) a)
     else a in
   (* lines 375-423 *)
   Some (symmetry_search rotate_crop_split (h skull_bounding_box)
                         (study image) (study skull) number_of_iterations)).

End Registration.

(* A sample rotation and crop whose crop holds no voxel (an empty volume,
   or a box that lies outside the image). *)
Definition no_split (b : bounding_box) (i s : image3d) (angle : float)
    : half_arrays := Halves [::] [::] [::] [::].

(* Candidate i on a grid of 1/180 radian around zero. *)
Definition claimed_angle (number_of_iterations i : nat) : float :=
  (float_of_int (- number_of_iterations%:Z + i%:Z) / 180)%float.

(* Candidate i on the grid that the docstring announces, in steps of 0.5
   degree: (i - number_of_iterations) * 0.5 / 180 * pi. *)
Definition documented_angle (number_of_iterations i : nat) : float :=
  (float_of_int (- number_of_iterations%:Z + i%:Z) * 0.5 / 180
   * math_pi)%float.

(* i0 is the first index below n at which s is minimal. *)
Definition first_minimum (s : nat -> rat) (n i0 : nat) : Prop :=
  [/\ (i0 < n)%N, forall j, (j < n)%N -> s i0 <= s j
    & forall j, (j < i0)%N -> s i0 < s j].

(* The state of the search after the candidates 0..n-1, whose scores are
   s 0, ..., s (n-1): either no score was below 1 and the initial diff and
   angle stand, or the angle is that of the first minimal score. *)
Definition search_post (N : nat) (s : nat -> rat) (n : nat)
    (st : search_state) : Prop :=
  cross_correlation_list st = [seq s i | i <- iota 0 n]
  /\ ([/\ diff st = 1, correct_angle st = 0%float
        & forall j, (j < n)%N -> 1 <= s j]
      \/ exists i0, [/\ first_minimum s n i0, s i0 < 1, diff st = s i0
                      & correct_angle st = angle_of N i0]).

End Registration.

(* ===================================================================== *)
(* Further code of the three files                                        *)
(* ===================================================================== *)

(* --------------------------------------------------------------------- *)
(* material_decomposition.py: the residual of a candidate solution        *)
(* --------------------------------------------------------------------- *)

Module Residual.

(* the squared Euclidean norm of a row vector *)
Definition sqnorm (n : nat) (r : 'rV[rat]_n) : rat := (r *m r^T) 0 0.

(* |a x - b|^2 for the system a, the right-hand side b and the candidate x,
   all three as numpy holds them for one voxel *)
Definition residual (m n : nat) (a : 'M[rat]_(m, n)) (b : 'rV[rat]_m)
    (x : 'rV[rat]_n) : rat :=
  sqnorm (x *m a^T - b).

End Residual.

(* --------------------------------------------------------------------- *)
(* material_decomposition.py: folder names and attenuation table          *)
(* --------------------------------------------------------------------- *)

Module Attenuation.

(* c.lower() on one ASCII character *)
Definition lower_ascii (c : ascii) : ascii :=
  let n := nat_of_ascii c in
  if (65 <= n)%N && (n <= 90)%N then ascii_of_nat (n + 32) else c.

(* s.lower() *)
Fixpoint lower (s : string) : string :=
  match s with
  | EmptyString => EmptyString
  | String c t => String (lower_ascii c) (lower t)
  end.

Fixpoint starts_with (pat s : string) : bool :=
  match pat, s with
  | EmptyString, _ => true
  | String a p, String b t => Ascii.eqb a b && starts_with p t
  | String _ _, EmptyString => false
  end.

(* pat in s *)
Fixpoint contains (pat s : string) : bool :=
  starts_with pat s
  || match s with
     | EmptyString => false
     | String _ t => contains pat t
     end.

(* lines 40-66 *)
Definition retrieve_material_and_energy_from_folder_name
    (folder_name : string) : option string * option string :=
  (if contains "AboveAu" folder_name then (Some "Au", Some "above")
  else if contains "BelowAu" folder_name then (Some "Au", Some "below")
  else if contains "AboveBa" folder_name then (Some "Ba", Some "above")
  else if contains "BelowBa" folder_name then (Some "Ba", Some "below")
  else if contains "AboveGd" folder_name then (Some "Gd", Some "above")
  else if contains "BelowGd" folder_name then (Some "Gd", Some "below")
  else if contains "AboveI" folder_name then (Some "I", Some "above")
  else if contains "BelowI" folder_name then (Some "I", Some "below")
  else (None, None))%string.

(* The marker of an element and an energy side in a folder name. *)
Definition marker (material energy : string) : string :=
  ((if String.eqb energy "above" then "Above" else "Below") ++ material)%string.

(* The eight markers that the function looks for. *)
Definition markers : seq string :=
  [:: "AboveAu"; "BelowAu"; "AboveBa"; "BelowBa";
      "AboveGd"; "BelowGd"; "AboveI"; "BelowI"]%string.

(* indices_dict.get(key) of get_attenuation_from_kedge *)
Definition indices_dict (key : string) : option nat :=
  (if String.eqb key "water" then Some 0
   else if String.eqb key "h2o" then Some 0
   else if String.eqb key "i" then Some 1
   else if String.eqb key "iodine" then Some 1
   else if String.eqb key "ba" then Some 2
   else if String.eqb key "barium" then Some 2
   else if String.eqb key "gd" then Some 3
   else if String.eqb key "gadolinium" then Some 3
   else if String.eqb key "au" then Some 4
   else if String.eqb key "gold" then Some 4
   else None)%N%string.

(*        I-      I+       Ba-     Ba+     Gd-     Gd+     Au-      Au+ *)
Definition muz : seq (seq float) :=
  [:: [:: 0.3307; 0.3188; 0.2940; 0.2790; 0.2290; 0.2240; 0.1835; 0.1827];
      [:: 33.6370; 170.9231; 28.2000; 24.5600; 12.8300; 11.5500; 16.8852;
          16.3330];
      [:: 8.2170; 7.0000; 5.9230; 27.3200; 14.3500; 12.9300; 4.0000; 3.7450];
      [:: 12.3200; 10.4900; 8.8730; 7.7050; 4.0150; 17.7000; 5.6240; 5.2720];
      [:: 421.9694; 389.5878; 16.5900; 14.4300; 7.5510; 6.8090; 40.7423;
          165.8642]]%float.

(* s[n] for a Python list s and a Python integer n: a negative n counts
   from the end *)
Definition py_getitem (A : Type) (s : seq A) (n : int) : result A :=
  let pick (i : nat) : result A :=
    if nth None [seq Some x | x <- s] i is Some x then Ok x
    else Raise IndexError in
  match n with
  | Posz i => pick i
  | Negz i => if (i < size s)%N then pick (size s - i.+1)%N
              else Raise IndexError
  end.

(* lines 69-103.  A subscript by None (a name that is not a key) is a
   TypeError, and so is None - 1. *)
Definition get_attenuation_from_kedge
    (attenuation_material kedge_material above_or_below : string)
    : result float :=
  let kedge_material_index := indices_dict (lower kedge_material) in
  let attenuation_material_index :=
    indices_dict (lower attenuation_material) in
  let column (offset : int) : result float :=
    match attenuation_material_index with
    | None => Raise TypeError
    | Some a =>
        match py_getitem muz (Posz a) with
        | Raise e => Raise e
        | Ok line =>
            match kedge_material_index with
            | None => Raise TypeError
            | Some k => py_getitem line ((Posz k - 1) * 2 + offset)
            end
        end
    end in
  if String.eqb (lower above_or_below) "above" then column 1
  else column 0.

End Attenuation.

(* --------------------------------------------------------------------- *)
(* registration.py: what count_the_needed_translation_for_black_slices    *)
(* returns for a run of L mostly-zero slices in an image of n slices      *)
(* --------------------------------------------------------------------- *)

Module BlackSlices.

Definition counted (n L : nat) : nat :=
  if L == 0%N then 0%N else minn L.+1 n.

End BlackSlices.

(* --------------------------------------------------------------------- *)
(* registration.py: straight_throat_rotation, the tracking of the throat  *)
(* --------------------------------------------------------------------- *)

Module Tracking.
Import Registration.

(* np.sum(mask) of a mask of booleans *)
Definition nb_pixels (mask : mask2d) : nat :=
  sumn [seq count id line | line <- mask].

(* The lists that the loop of straight_throat_rotation builds:
   centroid_list holds [centroid[0], centroid[1], nbSlice], vectors_list
   the differences [z, y, x] of consecutive centroids. *)
Record tracking : Type := Track {
  centroid_list : seq (rat * rat * nat);
  vectors_list : seq (rat * rat * rat);
  list_of_ys : seq rat;
  list_of_xs : seq rat
}.

(* lines 274-287, one turn of the loop *)
Definition track_slice (throat_mask_img : seq mask2d)
    (st : result tracking) (nbSlice : nat) : result tracking :=
  match st with
  | Raise e => Raise e
  | Ok st =>
      let mask := nth [::] throat_mask_img nbSlice in
      if (1 <= nb_pixels mask)%N then
        match retrieve_throat_centroid mask with
        | Raise e => Raise e
        | Ok centroid =>
            let centroids :=
              rcons (centroid_list st) (centroid.1, centroid.2, nbSlice) in
            match rev centroids with
            | [:: last, previous & _] =>
                let z := (last.2%:Q - previous.2%:Q : rat) in
                let y := last.1.1 - previous.1.1 in
                let x := last.1.2 - previous.1.2 in
                Ok (Track centroids (rcons (vectors_list st) (z, y, x))
                          (rcons (list_of_ys st) y) (rcons (list_of_xs st) x))
            | _ =>
                Ok (Track centroids (vectors_list st) (list_of_ys st)
                          (list_of_xs st))
            end
        end
      else Ok st
  end.

(* list.sort() on a list of numbers *)
Definition list_sort (s : seq rat) : seq rat :=
  sort (fun a b : rat => a <= b) s.

(* lines 268-292 of straight_throat_rotation (manual=False): the loop over
   the slices, the two sorts, and total_vector.  The result is
   centroid_list, vectors_list and total_vector = [1, y, x]. *)
Definition throat_tracking (throat_mask_img : seq mask2d)
    : result (seq (rat * rat * nat) * seq (rat * rat * rat)
              * (rat * rat * rat)) :=
  match foldl (track_slice throat_mask_img) (Ok (Track [::] [::] [::] [::]))
              (iota 0 (size throat_mask_img)) with
  | Raise e => Raise e
  | Ok st =>
      let ys := list_sort (list_of_ys st) in
      let xs := list_sort (list_of_xs st) in
      match list_getitem ys (size ys %/ 2) with
      | Raise e => Raise e
      | Ok y =>
          match list_getitem xs (size xs %/ 2) with
          | Raise e => Raise e
          | Ok x => Ok (centroid_list st, vectors_list st, (1, y, x))
          end
      end
  end.

(* The slices that hold at least one pixel of the throat. *)
Definition throat_slices (throat_mask_img : seq mask2d) : seq nat :=
  [seq i <- iota 0 (size throat_mask_img)
  | (1 <= nb_pixels (nth [::] throat_mask_img i))%N].

(* The difference [z, y, x] of two entries of centroid_list. *)
Definition step_vector (previous last : rat * rat * nat) : rat * rat * rat :=
  (last.2%:Q - previous.2%:Q, last.1.1 - previous.1.1,
   last.1.2 - previous.1.2).

(* The differences of the consecutive entries of a list of centroids. *)
Definition differences (l : seq (rat * rat * nat)) : seq (rat * rat * rat) :=
  [seq step_vector p.1 p.2 | p <- zip l (behead l)].

(* The entry of centroid_list of slice i, when its centroid exists. *)
Definition entry_of (throat_mask_img : seq mask2d) (i : nat)
    : rat * rat * nat :=
  match retrieve_throat_centroid (nth [::] throat_mask_img i) with
  | Ok c => (c.1, c.2, i)
  | Raise _ => (0, 0, i)
  end.

End Tracking.

(* --------------------------------------------------------------------- *)
(* pagailleIO.py: remove_filename_in_path                                 *)
(* --------------------------------------------------------------------- *)

Module PagailleIO.

(* s.split(sep) for a separator of one character: the pieces between the
   occurrences of sep, one more than there are occurrences. *)
Fixpoint str_split (sep : ascii) (s : string) : seq string :=
  match s with
  | EmptyString => [:: EmptyString]
  | String c t =>
      if Ascii.eqb c sep then EmptyString :: str_split sep t
      else match str_split sep t with
           | piece :: pieces => String c piece :: pieces
           | [::] => [:: String c EmptyString]
           end
  end.

(* l[:-1] *)
Definition but_last (A : Type) (l : seq A) : seq A :=
  take (size l).-1 l.

(* l[-1] of a list that is not empty *)
Definition last_piece (l : seq string) : string := last EmptyString l.

Definition backslash : ascii := "\"%char.
Definition slash : ascii := "/"%char.

(* lines 77-80: the choice of the splitter *)
Definition splitter_of (path : string) : ascii :=
  if (1 < size (str_split backslash path))%N then backslash else slash.

(* remove_filename_in_path, lines 68-86 *)
Definition remove_filename_in_path (path : string) : string :=
  let splitter := splitter_of path in
  let path_list := but_last (str_split splitter path) in
  foldl (fun new_path elt =>
           String.append new_path
             (String.append elt (String splitter EmptyString)))
        EmptyString path_list.

(* c in s, for a character c *)
Fixpoint occurs (c : ascii) (s : string) : bool :=
  match s with
  | EmptyString => false
  | String a t => Ascii.eqb a c || occurs c t
  end.

End PagailleIO.

(* --------------------------------------------------------------------- *)
(* pagailleIO.py: saveTiff16bit                                           *)
(* --------------------------------------------------------------------- *)

Module Tiff16.

(* np.amin and np.amax of an array that is not empty *)
Definition amin (x : rat) (xs : seq rat) : rat := foldr Order.min x xs.
Definition amax (x : rat) (xs : seq rat) : rat := foldr Order.max x xs.

(* The constants of saveTiff16bit: 65536 = 2^16, 65635 = 2^16 + 99 and
   65535 = 2^16 - 1, the largest value of uint16. *)
Definition c65536 : rat := 2%:Q ^+ 16.
Definition c65635 : rat := c65536 + 99%:Q.
Definition c65535 : rat := c65536 - 1.

(* saveTiff16bit, lines 26-32: the array datatoStore that is handed to the
   conversion to uint16, on the pixels of data in any order.  np.amin raises
   ValueError on an empty array.  With maxIm = minIm after line 29 the
   division gives nan or inf, which the rationals do not have: None. *)
Definition datatoStore (data : seq rat) (minIm maxIm : rat)
    : option (result (seq rat)) :=
  let bounds :=
    if minIm == maxIm then
      match data with
      | [::] => Raise ValueError
      | x :: xs => Ok (amin x xs, amax x xs)
      end
    else Ok (minIm, maxIm) in
  match bounds with
  | Raise e => Some (Raise e)
  | Ok (minIm, maxIm) =>
      if maxIm - minIm == 0 then None
      else
        let scaled :=
          [seq c65536 * (v - minIm) / (maxIm - minIm) | v <- data] in
        let capped :=
          [seq if c65635 < v then c65535 else v | v <- scaled] in
        Some (Ok [seq if v < 0 then 0 else v | v <- capped])
  end.

End Tiff16.

(* ===================================================================== *)
(* Properties of material_decomposition.py                                *)
(* ===================================================================== *)

Module DecompositionFacts.

Import Decomposition.

Lemma gram_eq0 (m n : nat) (N : 'M[rat]_(m, n)) : N *m N^T = 0 -> N = 0.
Proof.
move=> h; apply/matrixP => i j; rewrite [RHS]mxE.
have := congr1 (fun M : 'M_m => M i i) h; rewrite !mxE.
move/psumr_eq0P => /(_ _ j isT) hh.
have : N i j * N i j = 0.
  rewrite -[RHS]hh ?mxE //.
  by move=> k _; rewrite !mxE -expr2 sqr_ge0.
by move/eqP; rewrite mulf_eq0 orbb => /eqP.
Qed.

Lemma np_solveP (n V : nat) (a : 'M[rat]_n) (b : 'M[rat]_(V, n)) :
  a \in unitmx -> (b *m (invmx a)^T) *m a^T = b.
Proof.
by move=> ua; rewrite -mulmxA -trmx_mul mulmxV // trmx1 mulmx1.
Qed.

Lemma sub_gram3 (m n : nat) (a : 'M[rat]_(m, n)) : (a <= a *m a^T *m a)%MS.
Proof.
have le1 : (a *m a^T *m a <= a)%MS by rewrite submxMl.
rewrite -(mxrank_leqif_sup le1).
have ker : (kermx (a *m a^T *m a) <= kermx a)%MS.
  apply/sub_kermxP; have := mulmx_ker (a *m a^T *m a).
  move: (kermx _) => k h0.
  have h1 : k *m a *m a^T = 0.
    apply: gram_eq0.
    have -> : k *m a *m a^T *m (k *m a *m a^T)^T
              = k *m (a *m a^T *m a) *m (k *m a)^T.
      by rewrite !trmx_mul trmxK !mulmxA.
    by rewrite h0 mul0mx.
  by apply: gram_eq0; rewrite trmx_mul mulmxA h1 mul0mx.
have := mxrankS ker; rewrite !mxrank_ker leq_sub2lE ?rank_leq_row // => le2.
by rewrite eqn_leq le2 mxrankS.
Qed.

(* normal equations *)
Lemma lstsq_normal (m n : nat) (a : 'M[rat]_(m, n)) (v : 'rV[rat]_m) :
  (v *m a *m pinvmx (a *m a^T *m a) *m a) *m a^T *m a = v *m a.
Proof.
have -> : v *m a *m pinvmx (a *m a^T *m a) *m a *m a^T *m a
          = v *m a *m pinvmx (a *m a^T *m a) *m (a *m a^T *m a).
  by rewrite !mulmxA.
rewrite mulmxKpV //.
by rewrite (submx_trans _ (sub_gram3 a)) // submxMl.
Qed.

Lemma min_norm_unique (m n : nat) (a : 'M[rat]_(m, n)) (x y : 'rV[rat]_n)
    (w z : 'rV[rat]_m) :
  x = w *m a -> y = z *m a -> x *m a^T *m a = y *m a^T *m a -> x = y.
Proof.
move=> hx hy hxy; apply/subr0_eq.
have hd : (x - y) *m a^T = 0.
  apply: gram_eq0.
  have -> : (x - y) *m a^T *m ((x - y) *m a^T)^T
            = (x *m a^T *m a - y *m a^T *m a) *m (x - y)^T.
    by rewrite trmx_mul trmxK !mulmxBl !mulmxA.
  by rewrite hxy subrr mul0mx.
apply: gram_eq0.
by rewrite {2}hx {2}hy -mulmxBl trmx_mul mulmxA hd mul0mx.
Qed.

Section LoopFacts.
Variable lstsq : forall m n : nat, 'M[rat]_(m, n) -> 'rV[rat]_m -> 'rV[rat]_n.
Variables (K P : nat) (sh : spatial_shape).
Variable (mus : ndarray2) (c : bool).

Lemma foldl_step_2D rows s :
  foldl (@lstsq_step lstsq K P mus c) (Solution2D rows) s
  = Solution2D
      (rows ++ [seq @lstsq _ _ (system_2d_matrix K P mus c) x | x <- s]).
Proof.
elim: s rows => [|x s ih] rows /=; first by rewrite cats0.
by rewrite ih cat_rcons.
Qed.

Lemma foldl_step_None s :
  foldl (@lstsq_step lstsq K P mus c) NoSolution s =
  match s with
  | [::] => NoSolution
  | [:: x] => Solution1D (@lstsq _ _ (system_2d_matrix K P mus c) x)
  | _ => Solution2D [seq @lstsq _ _ (system_2d_matrix K P mus c) x | x <- s]
  end.
Proof. by case: s => [|x [|y s]] //=; rewrite foldl_step_2D. Qed.

End LoopFacts.

Section BranchFacts.
Variable solve :
  forall n V : nat, 'M[rat]_n -> 'M[rat]_(V, n) -> result 'M[rat]_(V, n).
Variable lstsq : forall m n : nat, 'M[rat]_(m, n) -> 'rV[rat]_m -> 'rV[rat]_n.
Variables (K P : nat) (sh : spatial_shape).
Variable images : 'M[rat]_(K, nvox sh).
Variable densities : 'rV[rat]_P.
Variable (mus : ndarray2) (c : bool).

Lemma stack_rows_lstsq :
  stack_rows sh [seq @lstsq _ _ (system_2d_matrix K P mus c) x
                | x <- [seq row v (vector_2d_matrix images c)
                       | v <- enum 'I_(nvox sh)]]
  = lstsq_solution lstsq P images mus c.
Proof.
apply/matrixP => v m; rewrite !mxE -map_comp.
by rewrite (nth_map v) ?size_enum_ord //= nth_ord_enum.
Qed.

Lemma lstsq_loopE :
  (1 < nvox sh)%N ->
  lstsq_loop lstsq P images mus c
  = Solution2D [seq @lstsq _ _ (system_2d_matrix K P mus c) x
               | x <- [seq row v (vector_2d_matrix images c)
                      | v <- enum 'I_(nvox sh)]].
Proof.
move=> hV; rewrite /lstsq_loop foldl_step_None.
set s := [seq _ | v <- enum _].
have : (1 < size s)%N by rewrite size_map size_enum_ord.
by case: s => [|x [|y s]].
Qed.

Lemma lstsq_branch :
  broadcastable mus K P -> (0 < K)%N -> (K + c)%N != P -> (1 < nvox sh)%N ->
  decomposition_equation_resolution solve lstsq images densities mus c
  = Ok (scale_solution densities (lstsq_solution lstsq P images mus c)).
Proof.
move=> hb hK hne hV; rewrite /decomposition_equation_resolution hb /=.
rewrite eqn0Ngt hK /=; case: eqP => [e|_]; first by rewrite e eqxx in hne.
rewrite /concentration_of_acc lstsq_loopE // stack_rows_lstsq.
case: eqP => // P0; congr Ok; apply/matrixP => m.
by have: (m < 0)%N by rewrite -[X in (_ < X)%N]P0.
Qed.

End BranchFacts.

Lemma cast_col_mx0 (K n : nat) (e : (K + false)%N = K) (A : 'M[rat]_(K, n))
    (B : 'M[rat]_(false, n)) :
  castmx (e, erefl n) (col_mx A B) = A.
Proof.
apply/matrixP => i j; rewrite castmxE [cast_ord _ j]cast_ord_id.
have -> : cast_ord (esym e) i = lshift false i by apply: val_inj.
by rewrite col_mxEu.
Qed.

Lemma cast_tr_col_mx0 (K n : nat) (e : (K + false)%N = K) (A : 'M[rat]_(K, n))
    (B : 'M[rat]_(false, n)) :
  castmx (erefl n, e) (col_mx A B)^T = A^T.
Proof.
apply/matrixP => i j; rewrite castmxE [cast_ord _ i]cast_ord_id mxE [RHS]mxE.
have -> : cast_ord (esym e) j = lshift false j by apply: val_inj.
by rewrite col_mxEu.
Qed.

Lemma thousand_neq0 : thousand != 0.
Proof. by rewrite /thousand intr_eq0. Qed.

Lemma unscaleK (P : nat) (sh : spatial_shape) (densities : 'rV[rat]_P)
    (x : 'M[rat]_(nvox sh, P)) :
  (forall m, densities 0 m != 0) ->
  unscale densities (scale_solution densities x) = x^T.
Proof.
move=> hd; apply/matrixP => m v; rewrite !mxE /astype_float32.
move: thousand thousand_neq0 => t ht.
by rewrite -[_ * _ * t]mulrA mulfK // mulf_neq0 ?hd.
Qed.

(** C1. Square system (K energy images, K materials, no volume-fraction
    row), at least one image, an attenuation matrix that fits the K x K
    system and makes it invertible, densities that are not zero: the call
    returns maps, and the coefficient matrix times the maps divided back by
    density x 1000 is the stack of the images, voxel by voxel. *)
Theorem square_system_round_trip (K : nat) (sh : spatial_shape)
    (images : 'M[rat]_(K, nvox sh)) (densities : 'rV[rat]_K)
    (material_attenuations : ndarray2) :
  (0 < K)%N ->
  broadcastable material_attenuations K K ->
  broadcast_to K K material_attenuations \in unitmx ->
  (forall m, densities 0 m != 0) ->
  exists2 maps,
    solve images densities material_attenuations false = Ok maps
    & broadcast_to K K material_attenuations *m unscale densities maps
      = images.
Proof.
move=> hK hb hu hd.
rewrite /solve /decomposition_equation_resolution hb eqn0Ngt hK.
rewrite [~~ true]/=; cbv iota.
case: eqP => [e|]; last by rewrite addn0.
rewrite cast_col_mx0 cast_tr_col_mx0 /np_solve hu orbT.
eexists; first by reflexivity.
by rewrite unscaleK // trmx_mul !trmxK mulKVmx.
Qed.

Lemma item_array2_of_seq (r c : nat) (s : seq (seq rat)) (i j : nat) :
  (i < r)%N -> (j < c)%N ->
  item (array2_of_seq r c s) i j = nth 0 (nth [::] s i) j.
Proof.
move=> hi hj; rewrite /item /=.
case: insubP => [i' _ ei|]; last by rewrite hi.
case: insubP => [j' _ ej|]; last by rewrite hj.
by rewrite mxE ei ej.
Qed.

Lemma square_system_round_trip_witness :
  let images : 'M[rat]_(1, nvox (Shape2 1 2)) := const_mx 6%:Q in
  let densities : 'rV[rat]_1 := const_mx 2%:Q in
  let mus := array2_of_seq 1 1 [:: [:: 3%:Q]] in
  exists2 maps,
    solve images densities mus false = Ok maps
    & broadcast_to 1 1 mus *m unscale densities maps = images.
Proof.
apply: square_system_round_trip => //.
  by rewrite unitmxE det_mx11 mxE /= item_array2_of_seq.
by move=> m; rewrite mxE.
Defined.

Lemma scale_double (P : nat) (sh : spatial_shape) (i : 'I_P)
    (densities : 'rV[rat]_P) (x : 'M[rat]_(nvox sh, P)) :
  scale_solution (double_density i densities) x
  = double_map i (scale_solution densities x).
Proof.
apply/matrixP => m v; rewrite !mxE /astype_float32.
by move: thousand => t; case: eqP => // _; rewrite mulrCA !mulrA.
Qed.

(** C3. Whatever the solvers and the inputs: doubling the density of
    material i doubles map i and leaves the other maps as they are; a call
    that raises, raises the same exception. *)
Theorem concentration_linear_in_density
    (linalg_solve :
       forall n V : nat, 'M[rat]_n -> 'M[rat]_(V, n) -> result 'M[rat]_(V, n))
    (linalg_lstsq :
       forall m n : nat, 'M[rat]_(m, n) -> 'rV[rat]_m -> 'rV[rat]_n)
    (K P : nat) (sh : spatial_shape) (images : 'M[rat]_(K, nvox sh))
    (densities : 'rV[rat]_P) (material_attenuations : ndarray2)
    (volume_fraction_hypothesis : bool) (i : 'I_P) :
  decomposition_equation_resolution linalg_solve linalg_lstsq images
    (double_density i densities) material_attenuations
    volume_fraction_hypothesis
  = rmap (double_map i)
      (decomposition_equation_resolution linalg_solve linalg_lstsq images
         densities material_attenuations volume_fraction_hypothesis).
Proof.
rewrite /decomposition_equation_resolution.
case: ifP => // _; case: ifP => // _; case: eqP => [e|_].
  by case: linalg_solve => [x|err] //=; rewrite scale_double.
rewrite /concentration_of_acc; case: ifP => [_|_] /=.
  by congr Ok; apply/matrixP => m v; rewrite !mxE mulr0 if_same.
by case: lstsq_loop => [|x|rows] //=; rewrite scale_double.
Qed.

Lemma np_lstsq_normal (m n : nat) (a : 'M[rat]_(m, n)) (v : 'rV[rat]_m) :
  np_lstsq a v *m a^T *m a = v *m a.
Proof. exact: lstsq_normal. Qed.

Lemma np_lstsq_min_norm (m n : nat) (a : 'M[rat]_(m, n)) (v : 'rV[rat]_m)
    (x : 'rV[rat]_n) (z : 'rV[rat]_m) :
  x = z *m a -> x *m a^T = v -> np_lstsq a v = x.
Proof.
move=> hx hv.
apply: (@min_norm_unique _ _ a _ _ (v *m a *m pinvmx (a *m a^T *m a)) z) => //.
by rewrite np_lstsq_normal hv.
Qed.

Lemma np_lstsq_consistent (m n : nat) (a : 'M[rat]_(m, n)) (v : 'rV[rat]_m)
    (x : 'rV[rat]_n) :
  \rank a = n -> x *m a^T = v -> np_lstsq a v = x.
Proof.
move=> hr hv; apply/subr0_eq.
have free : row_free a^T by rewrite /row_free mxrank_tr hr.
apply: (row_free_inj free); rewrite mul0mx.
apply: gram_eq0.
have -> : (np_lstsq a v - x) *m a^T *m ((np_lstsq a v - x) *m a^T)^T
          = (np_lstsq a v *m a^T *m a - x *m a^T *m a)
            *m (np_lstsq a v - x)^T.
  by rewrite trmx_mul trmxK !mulmxBl !mulmxA.
by rewrite np_lstsq_normal hv subrr mul0mx.
Qed.

Lemma exact_branch_np (K P : nat) (c : bool) (e : (K + c)%N = P)
    (sh : spatial_shape) (images : 'M[rat]_(K, nvox sh))
    (densities : 'rV[rat]_P) (mus : ndarray2) (X : 'M[rat]_(nvox sh, P)) :
  broadcastable mus K P -> (0 < K)%N ->
  castmx (e, erefl P) (system_2d_matrix K P mus c) \in unitmx ->
  X *m (system_2d_matrix K P mus c)^T = vector_2d_matrix images c ->
  solve images densities mus c = Ok (scale_solution densities X).
Proof.
move=> hb hK hu hX.
rewrite /solve /decomposition_equation_resolution hb /= eqn0Ngt hK /=.
case: eqP => [e'|]; last by rewrite e.
rewrite (eq_irrelevance e' e) /np_solve hu orbT; congr (Ok (scale_solution _ _)).
rewrite -hX; move: hu; move: (system_2d_matrix _ _ _ _) => A.
case: _ / e A densities X hX hb => A _ X _ _ hu.
by rewrite !castmx_id -mulmxA -trmx_mul mulVmx // trmx1 mulmx1.
Qed.

(** C2, amended. Two systems on the same voxels (two or more) and the same
    materials that share an exact per-voxel solution X: a square one with an
    invertible coefficient matrix, and one with more rows than materials
    whose coefficient matrix has full column rank.  The exact branch and the
    least-squares branch both return X scaled by density x 1000. *)
Theorem solver_paths_agree (K1 K2 : nat) (c1 c2 : bool) (sh : spatial_shape)
    (images1 : 'M[rat]_(K1, nvox sh)) (images2 : 'M[rat]_(K2, nvox sh))
    (densities : 'rV[rat]_(K1 + c1)) (mus1 mus2 : ndarray2)
    (X : 'M[rat]_(nvox sh, K1 + c1)) :
  (0 < K1)%N -> (0 < K2)%N ->
  broadcastable mus1 K1 (K1 + c1) -> broadcastable mus2 K2 (K1 + c1) ->
  (K1 + c1 < K2 + c2)%N -> (1 < nvox sh)%N ->
  system_2d_matrix K1 (K1 + c1) mus1 c1 \in unitmx ->
  \rank (system_2d_matrix K2 (K1 + c1) mus2 c2) = (K1 + c1)%N ->
  X *m (system_2d_matrix K1 (K1 + c1) mus1 c1)^T
    = vector_2d_matrix images1 c1 ->
  X *m (system_2d_matrix K2 (K1 + c1) mus2 c2)^T
    = vector_2d_matrix images2 c2 ->
  solve images1 densities mus1 c1 = Ok (scale_solution densities X)
  /\ solve images2 densities mus2 c2 = Ok (scale_solution densities X).
Proof.
move=> hK1 hK2 hb1 hb2 hlt hV hu hr hX1 hX2; split.
  by apply: (@exact_branch_np _ _ _ (erefl _)) => //; rewrite castmx_id.
have hne : (K2 + c2)%N != (K1 + c1)%N by rewrite neq_ltn hlt orbT.
rewrite /solve lstsq_branch //.
congr (Ok (scale_solution _ _)); apply/matrixP => v m; rewrite mxE.
by rewrite (@np_lstsq_consistent _ _ _ _ (row v X)) ?mxE // -row_mul hX2.
Qed.

Lemma item_Array2 (r c : nat) (M : 'M[rat]_(r, c)) (i : 'I_r) (j : 'I_c) :
  item (Array2 M) i j = M i j.
Proof.
rewrite /item /=.
case: insubP => [i' _ ei|]; last by rewrite ltn_ord.
case: insubP => [j' _ ej|]; last by rewrite ltn_ord.
by rewrite (val_inj ei) (val_inj ej).
Qed.

Lemma broadcast_to_Array2 (r c : nat) (M : 'M[rat]_(r, c)) :
  broadcast_to r c (Array2 M) = M.
Proof.
apply/matrixP => i j; rewrite mxE /=.
have -> : (if r == 1%N then 0%N else i) = i :> nat.
  by case: eqP => // r1; move: (i); rewrite r1 => i'; rewrite ord1.
have -> : (if c == 1%N then 0%N else j) = j :> nat.
  by case: eqP => // c1; move: (j); rewrite c1 => j'; rewrite ord1.
exact: item_Array2.
Qed.

Lemma broadcastable_Array2 (r c : nat) (M : 'M[rat]_(r, c)) :
  broadcastable (Array2 M) r c.
Proof. by rewrite /broadcastable /axis_fits /= !eqxx. Qed.

Lemma mul_const_mx (m n p : nat) (a b : rat) :
  (const_mx a : 'M_(m, n)) *m (const_mx b : 'M_(n, p))
  = const_mx (n%:R * (a * b)).
Proof.
apply/matrixP => i j; rewrite !mxE.
under eq_bigr do rewrite !mxE.
by rewrite sumr_const card_ord -mulr_natl.
Qed.

(** C4, amended. An attenuation matrix that numpy cannot broadcast to K x P
    (a row count that is neither K nor 1, or a column count that is neither
    P nor 1) makes the call raise ValueError, whatever the solvers are: no
    solve is attempted. *)
Theorem unbroadcastable_attenuations_raise
    (linalg_solve :
       forall n V : nat, 'M[rat]_n -> 'M[rat]_(V, n) -> result 'M[rat]_(V, n))
    (linalg_lstsq :
       forall m n : nat, 'M[rat]_(m, n) -> 'rV[rat]_m -> 'rV[rat]_n)
    (K P : nat) (sh : spatial_shape) (images : 'M[rat]_(K, nvox sh))
    (densities : 'rV[rat]_P) (material_attenuations : ndarray2)
    (volume_fraction_hypothesis : bool) :
  ~~ broadcastable material_attenuations K P ->
  decomposition_equation_resolution linalg_solve linalg_lstsq images
    densities material_attenuations volume_fraction_hypothesis
  = Raise ValueError.
Proof. by rewrite /decomposition_equation_resolution => ->. Qed.

Lemma unbroadcastable_attenuations_raise_witness :
  ~~ broadcastable (Array2 (ones 3 2)) 2 2
  /\ solve (ones 2 (nvox two_voxels)) (ones 1 2) (Array2 (ones 3 2)) true
     = Raise ValueError.
Proof.
split; first by [].
exact: (@unbroadcastable_attenuations_raise np_solve np_lstsq).
Defined.

(** C4 fails as stated: a 1 x 2 attenuation matrix for two energies and two
    materials is broadcast to both rows, the system is solved and maps are
    returned. *)
Lemma shape_mismatch_not_raised :
  malformed (Array2 (ones 1 2)) 2 2
  /\ is_ok (solve (ones 2 (nvox two_voxels)) (ones 1 2)
                  (Array2 (ones 1 2)) true)
  /\ solve (ones 2 (nvox two_voxels)) (ones 1 2) (Array2 (ones 1 2)) true
     <> Raise ShapeMismatch.
Proof.
by rewrite /solve lstsq_branch.
Qed.

(** C5, amended. With fewer rows than materials (K + constraint < P), an
    attenuation matrix that fits, at least one image and two voxels or more,
    the call is not rejected: it returns the least-squares solution of every
    voxel scaled by density x 1000. *)
Theorem insufficient_energies_least_squares (K P : nat) (sh : spatial_shape)
    (images : 'M[rat]_(K, nvox sh)) (densities : 'rV[rat]_P)
    (material_attenuations : ndarray2) (volume_fraction_hypothesis : bool) :
  (K + volume_fraction_hypothesis < P)%N ->
  broadcastable material_attenuations K P -> (0 < K)%N ->
  (1 < nvox sh)%N ->
  solve images densities material_attenuations volume_fraction_hypothesis
  = Ok (scale_solution densities
          (lstsq_solution np_lstsq P images material_attenuations
             volume_fraction_hypothesis)).
Proof.
move=> hlt hb hK hV; rewrite /solve lstsq_branch //.
by rewrite neq_ltn hlt.
Qed.

Lemma insufficient_energies_least_squares_witness :
  solve (ones 1 (nvox two_voxels)) (ones 1 2) (Array2 (ones 1 2)) false
  = Ok (scale_solution (ones 1 2)
          (lstsq_solution np_lstsq 2 (ones 1 (nvox two_voxels))
             (Array2 (ones 1 2)) false)).
Proof. exact: insufficient_energies_least_squares. Defined.

(** C5 fails as stated: one energy, two materials, no constraint row; the
    call returns maps. *)
Lemma insufficient_energies_not_rejected :
  (1 + false < 2)%N
  /\ is_ok (solve (ones 1 (nvox two_voxels)) (ones 1 2)
                  (Array2 (ones 1 2)) false)
  /\ solve (ones 1 (nvox two_voxels)) (ones 1 2) (Array2 (ones 1 2)) false
     <> Raise InsufficientEnergies.
Proof.
by rewrite /solve lstsq_branch.
Qed.

Lemma system_eye :
  system_2d_matrix 2 2 (Array2 (1%:M : 'M[rat]_2)) false = 1%:M.
Proof.
rewrite /system_2d_matrix broadcast_to_Array2.
by rewrite -[RHS](@cast_col_mx0 2 _ (erefl 2) 1%:M (const_mx 1)) castmx_id.
Qed.

Lemma vector_noconstraint (V' : spatial_shape)
    (images : 'M[rat]_(2, nvox V')) :
  vector_2d_matrix images false = images^T.
Proof.
rewrite /vector_2d_matrix.
by rewrite -[RHS](@cast_tr_col_mx0 2 _ (erefl 2) images (const_mx 1)) castmx_id.
Qed.

Lemma system_ones (K P : nat) :
  system_2d_matrix K P (Array2 (ones K P)) true = const_mx 1.
Proof. by rewrite /system_2d_matrix broadcast_to_Array2 col_mx_const. Qed.

Lemma vector_ones (K : nat) (sh : spatial_shape) :
  vector_2d_matrix (ones K (nvox sh)) true = const_mx 1.
Proof. by rewrite /vector_2d_matrix col_mx_const trmx_const. Qed.

Lemma exact_path_sample :
  solve (first_material (nvox two_voxels))^T (ones 1 2)
        (Array2 (1%:M : 'M[rat]_2)) false
  = Ok (scale_solution (ones 1 2) (first_material (nvox two_voxels))).
Proof.
apply: (@exact_branch_np 2 2 false (erefl 2)) => //.
  by rewrite castmx_id system_eye unitmx1.
by rewrite system_eye trmx1 mulmx1 vector_noconstraint trmxK.
Qed.

Lemma half_half_min_norm (v : 'I_(nvox two_voxels)) :
  np_lstsq (system_2d_matrix 2 2 (Array2 (ones 2 2)) true)
           (row v (vector_2d_matrix (ones 2 (nvox two_voxels)) true))
  = const_mx (2%:Q^-1).
Proof.
rewrite system_ones vector_ones row_const.
apply: (@np_lstsq_min_norm _ _ _ _ _ (const_mx (6%:Q^-1))).
  by rewrite mul_const_mx mulr1; congr const_mx; apply/eqP.
by rewrite trmx_const mul_const_mx mulr1; congr const_mx; apply/eqP.
Qed.

Lemma lstsq_path_sample :
  solve (ones 2 (nvox two_voxels)) (ones 1 2) (Array2 (ones 2 2)) true
  = Ok (scale_solution (ones 1 2) (const_mx (2%:Q^-1))).
Proof.
rewrite /solve lstsq_branch //; congr (Ok (scale_solution _ _)).
by apply/matrixP => v m; rewrite mxE half_half_min_norm !mxE.
Qed.

(** C2 fails as stated: two indistinguishable materials under the
    volume-fraction row make a consistent 3 x 2 system of rank 1; X solves
    it and the square system exactly, the exact branch returns X and the
    least-squares branch the solution of minimal norm (1/2, 1/2). *)
Lemma solver_paths_disagree :
  let V := nvox two_voxels in
  let X : 'M[rat]_(V, 2) := first_material V in
  X *m (system_2d_matrix 2 2 (Array2 (1%:M : 'M[rat]_2)) false)^T
    = vector_2d_matrix X^T false
  /\ X *m (system_2d_matrix 2 2 (Array2 (ones 2 2)) true)^T
    = vector_2d_matrix (ones 2 V) true
  /\ solve X^T (ones 1 2) (Array2 (1%:M : 'M[rat]_2)) false
     <> solve (ones 2 V) (ones 1 2) (Array2 (ones 2 2)) true.
Proof.
move=> V X; split; last split.
- by rewrite system_eye trmx1 mulmx1 vector_noconstraint trmxK.
- rewrite system_ones vector_ones trmx_const.
  apply/matrixP => v i; rewrite !mxE big_ord_recl big_ord1 !mxE /=.
  by rewrite mul1r mul0r addr0.
rewrite exact_path_sample lstsq_path_sample => -[] /matrixP /(_ ord_max ord0).
rewrite !mxE /astype_float32; move: thousand thousand_neq0 => t ht.
rewrite /= mul0r mul0r mulr1 => /esym /eqP.
by rewrite mulf_eq0 invr_eq0 (negPf ht) orbF.
Qed.

Lemma system_noconstraint1 (P : nat) (A : 'M[rat]_(1, P)) :
  system_2d_matrix 1 P (Array2 A) false = A.
Proof.
rewrite /system_2d_matrix broadcast_to_Array2.
by rewrite -[RHS](@cast_col_mx0 1 _ (erefl 1) A (const_mx 1)) castmx_id.
Qed.

Lemma system_noconstraint2 (P : nat) (A : 'M[rat]_(2, P)) :
  system_2d_matrix 2 P (Array2 A) false = A.
Proof.
rewrite /system_2d_matrix broadcast_to_Array2.
by rewrite -[RHS](@cast_col_mx0 2 _ (erefl 2) A (const_mx 1)) castmx_id.
Qed.

Lemma vector_noconstraint1 (sh : spatial_shape)
    (images : 'M[rat]_(1, nvox sh)) :
  vector_2d_matrix images false = images^T.
Proof.
rewrite /vector_2d_matrix.
by rewrite -[RHS](@cast_tr_col_mx0 1 _ (erefl 1) images (const_mx 1)) castmx_id.
Qed.

Lemma ones_mul_ones1 (m p : nat) : ones m 1 *m ones 1 p = ones m p.
Proof. by rewrite /ones mul_const_mx !mulr1. Qed.

Lemma solver_paths_agree_witness :
  solve (ones 1 (nvox two_voxels)) (ones 1 1) (Array2 (ones 1 1)) false
    = Ok (scale_solution (ones 1 1) (ones (nvox two_voxels) 1))
  /\ solve (ones 2 (nvox two_voxels)) (ones 1 1) (Array2 (ones 2 1)) false
    = Ok (scale_solution (ones 1 1) (ones (nvox two_voxels) 1)).
Proof.
apply: (@solver_paths_agree 1 2 false false) => //.
- by rewrite system_noconstraint1 unitmxE det_mx11 mxE unitr1.
- rewrite system_noconstraint2; apply/eqP.
  rewrite eqn_leq rank_leq_col lt0n mxrank_eq0.
  by apply/eqP => /matrixP /(_ ord0 ord0); rewrite !mxE => /eqP; rewrite oner_eq0.
- by rewrite system_noconstraint1 vector_noconstraint1 /ones !trmx_const
             -/(ones _ _) -/(ones 1 _) ones_mul_ones1.
- by rewrite system_noconstraint2 vector_noconstraint /ones !trmx_const
             -/(ones _ _) -/(ones 1 _) ones_mul_ones1.
Defined.

End DecompositionFacts.

(* ===================================================================== *)
(* Properties of registration.py                                          *)
(* ===================================================================== *)

Module RegistrationFacts.

Import Order.TTheory.
Import Registration.

(** C6, on the code: for equal vectors the cross product is zero, the factor
    (1 - scalar) / normalized**2 is 0/0, and every entry of the returned
    matrix is nan; the result is not the identity. *)
Theorem rotation_between_equal_vectors_is_nan :
  all_nan (calculate_rotation_matrix_between_3d_vectors
             (0, 0, 1)%float (0, 0, 1)%float)
  /\ all_nan (calculate_rotation_matrix_between_3d_vectors
                (1, 2, 3)%float (1, 2, 3)%float)
  /\ mat3_eqb (calculate_rotation_matrix_between_3d_vectors
                 (0, 0, 1)%float (0, 0, 1)%float) eye3 = false.
Proof. by vm_compute. Qed.

(** C8, on the code: one mostly-zero slice in front of two others.  The
    front loop tests image[0] twice (slice_of_image is re-read before
    nb_slice moves on) and returns a front offset of 2 for one black
    slice. *)
Theorem black_slices_counted_twice :
  let image : image3d := [:: [:: 0; 0]; [:: 1; 1]; [:: 1; 1]] in
  leading_black image = 1%N /\ trailing_black image = 0%N
  /\ count_the_needed_translation_for_black_slices image
     = Some (Ok (2%N, 0%N)).
Proof. by vm_compute. Qed.

Lemma empty_mask_foreground (mask : mask2d) :
  empty_mask mask -> foreground mask = [::].
Proof.
move=> /allP hm; rewrite /foreground.
have hrow : forall r, (r < size mask)%N ->
    [seq (r, c) | c <- iota 0 (size (nth [::] mask r))
                & nth false (nth [::] mask r) c] = [::].
  move=> r hr; have /allP hl := hm _ (mem_nth [::] hr).
  apply/eqP; rewrite -size_eq0 size_map size_filter -leqn0 leqNgt -has_count.
  apply/hasPn => c; rewrite mem_iota /= add0n => hc.
  exact: (hl _ (mem_nth false hc)).
have -> : [seq [seq (r, c) | c <- iota 0 (size (nth [::] mask r))
                          & nth false (nth [::] mask r) c]
          | r <- iota 0 (size mask)]
        = [seq [::] | r <- iota 0 (size mask)].
  by apply/eq_in_map => r; rewrite mem_iota /= add0n; apply: hrow.
by elim: (iota _ _) => //.
Qed.

(** C9, amended. On a mask with no foreground pixel there is no region and
    regions[0] raises IndexError. *)
Theorem empty_mask_raises_IndexError (mask : mask2d) :
  empty_mask mask -> retrieve_throat_centroid mask = Raise IndexError.
Proof.
by move=> he; rewrite /retrieve_throat_centroid /regionprops_label
                      empty_mask_foreground.
Qed.

Lemma empty_mask_raises_IndexError_witness :
  retrieve_throat_centroid [:: [:: false; false]; [:: false; false]]
  = Raise IndexError.
Proof. exact: empty_mask_raises_IndexError. Defined.

(** C9 fails as stated: the exception of an empty mask is IndexError, not
    EmptyMask. *)
Lemma empty_mask_not_EmptyMask :
  let mask : mask2d := [:: [:: false; false]; [:: false; false]] in
  empty_mask mask
  /\ retrieve_throat_centroid mask = Raise IndexError
  /\ retrieve_throat_centroid mask <> Raise EmptyMask.
Proof. by []. Qed.

Lemma python_int_intr (k : int) : python_int k%:~R = k.
Proof. by rewrite /python_int; case: ifP => _; rewrite ?intrKfloor ?intrKceil. Qed.

Lemma mirror_intr (a b : int) :
  (a%:~R + (b%:~R - a%:~R) * 2%:Q : rat) = (a + (b - a) * 2)%:~R.
Proof. by rewrite intrD intrM intrB. Qed.

Lemma mirror_intr' (a b : int) :
  (a%:~R - (a%:~R - b%:~R) * 2%:Q : rat) = (a - (a - b) * 2)%:~R.
Proof. by rewrite intrB intrM intrB. Qed.

Lemma recenter_integer (z : int) (b : bounding_box) :
  recenter z%:~R b =
  if bb1 b - z < z - bb0 b
  then Box (bb0 b) (bb0 b + (z - bb0 b) * 2) (bb2 b) (bb3 b)
  else Box (bb1 b - (bb1 b - z) * 2) (bb1 b) (bb2 b) (bb3 b).
Proof.
rewrite /recenter mirror_intr mirror_intr' !python_int_intr.
by rewrite -!intrB ltr_int.
Qed.

(** C10, amended. For an integer throat x-coordinate that is not centered in
    the box, the call leaves in the caller's array the box recentered on the
    throat: one of the bounds 0 and 1 has changed, the bounds 2 and 3 have
    not, and no other array of the heap has changed. *)
Theorem bounding_box_mutated_in_place
    (rotate_crop_split :
       bounding_box -> image3d -> image3d -> float -> half_arrays)
    (h : heap) (image skull : image3d) (skull_bounding_box : nat) (z : int)
    (number_of_iterations : nat) :
  let h' := (symmetry_based_registration rotate_crop_split h image skull
               skull_bounding_box z%:~R number_of_iterations).1 in
  ~~ centered z%:~R (h skull_bounding_box) ->
  [/\ h' skull_bounding_box = recenter z%:~R (h skull_bounding_box),
      ~~ box_eqb (h' skull_bounding_box) (h skull_bounding_box),
      bb2 (h' skull_bounding_box) = bb2 (h skull_bounding_box)
      /\ bb3 (h' skull_bounding_box) = bb3 (h skull_bounding_box)
    & forall r, r != skull_bounding_box -> h' r = h r].
Proof.
move=> h'; rewrite /h' /symmetry_based_registration /= /store eqxx.
rewrite /centered -!intrB eqr_int => hc.
split=> //; last 2 first.
- by rewrite /recenter; case: ifP.
- by move=> r /negPf ->.
rewrite recenter_integer /box_eqb.
move: (h skull_bounding_box) hc => [b0 b1 b2 b3] /= hc.
have e1 : (b0 + (z - b0) * 2 == b1) = (z - b0 == b1 - z).
  by rewrite mulr_natr mulr2n addrA subrKC [RHS]eq_sym subr_eq eq_sym addrC.
have e0 : (b1 - (b1 - z) * 2 == b0) = (z - b0 == b1 - z).
  rewrite mulr_natr mulr2n opprD addrA subKr.
  by rewrite subr_eq [RHS]subr_eq [b0 + _]addrC.
by case: ifP => _; rewrite /= ?e1 ?e0 (negPf hc) ?andbF.
Qed.

Lemma bounding_box_mutated_in_place_witness :
  let h : heap := fun _ => Box 0 10 0 10 in
  let h' := (symmetry_based_registration no_split h [::] [::] 0 6%:~R 1).1 in
  [/\ h' 0%N = recenter 6%:~R (h 0%N),
      ~~ box_eqb (h' 0%N) (h 0%N),
      bb2 (h' 0%N) = bb2 (h 0%N) /\ bb3 (h' 0%N) = bb3 (h 0%N)
    & forall r, r != 0%N -> h' r = h r].
Proof. by apply: bounding_box_mutated_in_place; vm_compute. Defined.

(** C10 fails as stated: with the throat at 5.25 in the box [0, 10] the
    bound written at index 1 is int(10.5) = 10, the value it had. *)
Lemma off_center_box_unchanged :
  let box := Box 0 10 0 10 in
  let h : heap := fun _ => box in
  let t : rat := 21%:Q / 4%:Q in
  ~~ centered t box
  /\ box_eqb ((symmetry_based_registration no_split h [::] [::] 0 t 1).1 0%N)
             box.
Proof. by vm_compute. Qed.

Lemma iota_rcons (n : nat) : iota 0 n.+1 = rcons (iota 0 n) n.
Proof. by rewrite -addn1 iotaD /= add0n cats1. Qed.

Section SearchFacts.

Variable rotate_crop_split :
  bounding_box -> image3d -> image3d -> float -> half_arrays.
Variables (box : bounding_box) (image_to_study skull_to_study : image3d).
Variable N : nat.
Variable s : nat -> rat.

Hypothesis scores :
  forall i, (i < N * 2)%N ->
    normalized_value
      (rotate_crop_split box image_to_study skull_to_study (angle_of N i))
    = Ok (s i).

Lemma search_prefix (n : nat) :
  (n <= N * 2)%N ->
  exists2 st,
    foldl (search_step rotate_crop_split box image_to_study skull_to_study N)
          (Ok (SearchState [::] 1 0%float)) (iota 0 n) = Ok st
    & search_post N s n st.
Proof.
elim: n => [|n ih] hn.
  by exists (SearchState [::] 1 0%float) => //; split=> //; left; split.
rewrite iota_rcons foldl_rcons.
have [[l d a] -> [/= hl hpost]] := ih (ltnW hn).
rewrite /search_step scores //=.
case: ifP => hlt; eexists; try reflexivity;
  rewrite /search_post; cbn [diff correct_angle cross_correlation_list];
  (split; first by rewrite hl -map_rcons -iota_rcons).
- right; exists n; split=> //.
  + split=> // j.
    * rewrite ltnS leq_eqVlt => /orP [/eqP -> //|hj].
      case: hpost => [[hd _ h1]|[i0 [[_ hmin _] _ hd _]]].
        by apply: ltW; apply: lt_le_trans (h1 _ hj); rewrite -hd.
      by apply: ltW; apply: lt_le_trans (hmin _ hj); rewrite -hd.
    * move=> hj; case: hpost => [[hd _ h1]|[i0 [[_ hmin _] _ hd _]]].
        by apply: lt_le_trans (h1 _ hj); rewrite -hd.
      by apply: lt_le_trans (hmin _ hj); rewrite -hd.
  + case: hpost => [[hd _ _]|[i0 [_ h1 hd _]]]; first by rewrite -hd.
    by apply: lt_trans h1; rewrite -hd.
- move/negbT: hlt; rewrite -leNgt => hle.
  case: hpost => [[hd ha h1]|[i0 [[hi hmin hfirst] h1 hd ha]]]; [left|right].
    split=> // j; rewrite ltnS leq_eqVlt => /orP [/eqP ->|]; last exact: h1.
    by rewrite -hd.
  exists i0; split=> //; split=> //; first exact: ltnW.
  move=> j; rewrite ltnS leq_eqVlt => /orP [/eqP ->|]; last exact: hmin.
  by rewrite -hd.
Qed.

End SearchFacts.

(* When every candidate has a score (no division by zero), the search
   evaluates the 2N candidates i = 0 .. 2N-1 in order, at the angles
   float(i - N) / 180 * pi; it keeps the angle of the first candidate of
   minimal score when that score is below 1, the initial value of diff, and
   the initial angle 0 when no score is below 1. *)
Lemma symmetry_search_result
    (rotate_crop_split :
       bounding_box -> image3d -> image3d -> float -> half_arrays)
    (box : bounding_box) (image_to_study skull_to_study : image3d)
    (N : nat) (s : nat -> rat) :
  (forall i, (i < N * 2)%N ->
     normalized_value
       (rotate_crop_split box image_to_study skull_to_study (angle_of N i))
     = Ok (s i)) ->
  exists2 st,
    symmetry_search rotate_crop_split box image_to_study skull_to_study N
    = Ok st
    & search_post N s (N * 2) st.
Proof. by move=> hs; apply: search_prefix. Qed.

(** C7. With number_of_iterations = 1 the two candidate angles are
    float(-1) / 180 * pi, which is minus one degree (between -0.01746 and
    -0.01745 radian), and 0: the step is one degree.  It is not the step of
    0.5 degree of the docstring, nor the step of 1/180 radian of the claim,
    and the grid -1, 0 degrees is not symmetric around 0. *)
Theorem symmetry_search_steps_one_degree :
  [/\ [seq angle_of 1 i | i <- iota 0 (1 * 2)]
      = [:: (-0.017453292519943295)%float; 0%float],
      ((-0.01746 <? angle_of 1 0) && (angle_of 1 0 <? -0.01745))%float,
      PrimFloat.eqb (angle_of 1 0) (documented_angle 1 0) = false,
      PrimFloat.eqb (angle_of 1 0) (claimed_angle 1 0) = false
    & PrimFloat.eqb (angle_of 1 1) (- angle_of 1 0) = false].
Proof. by vm_compute. Qed.

End RegistrationFacts.

(* ===================================================================== *)
(* Further properties of material_decomposition.py                        *)
(* ===================================================================== *)

Module DecompositionMore.
Import Decomposition DecompositionFacts.

(** X1. With K + constraint different from P, at least one material and images
    of exactly one voxel, the least-squares loop leaves solution_matrix
    one-dimensional and solution_matrix[:, 0] raises IndexError, whatever
    the solvers return. *)
Theorem one_voxel_least_squares_raises
    (linalg_solve :
       forall n V : nat, 'M[rat]_n -> 'M[rat]_(V, n) -> result 'M[rat]_(V, n))
    (linalg_lstsq :
       forall m n : nat, 'M[rat]_(m, n) -> 'rV[rat]_m -> 'rV[rat]_n)
    (K P : nat) (sh : spatial_shape) (images : 'M[rat]_(K, nvox sh))
    (densities : 'rV[rat]_P) (mus : ndarray2) (c : bool) :
  broadcastable mus K P -> (0 < K)%N -> (K + c)%N != P ->
  nvox sh = 1%N -> (0 < P)%N ->
  decomposition_equation_resolution linalg_solve linalg_lstsq images
    densities mus c
  = Raise IndexError.
Proof.
move=> hb hK hne hV hP.
rewrite /decomposition_equation_resolution hb eqn0Ngt hK.
rewrite [~~ true]/=; cbv iota.
case: eqP => [e|_]; first by rewrite e eqxx in hne.
rewrite /concentration_of_acc eqn0Ngt hP /lstsq_loop foldl_step_None.
set s := [seq _ | v <- enum _].
have : size s = 1%N by rewrite size_map size_enum_ord.
by case: s => [|x [|y s]].
Qed.

Lemma one_voxel_least_squares_raises_witness :
  solve (ones 2 (nvox (Shape2 1 1))) (ones 1 1) (Array2 (ones 2 1)) false
  = Raise IndexError.
Proof. exact: one_voxel_least_squares_raises. Defined.

(** X2. The call raises ValueError exactly when the attenuation matrix cannot be
    broadcast to K x P. *)
Theorem ValueError_iff_unbroadcastable (K P : nat) (sh : spatial_shape)
    (images : 'M[rat]_(K, nvox sh)) (densities : 'rV[rat]_P)
    (mus : ndarray2) (c : bool) :
  (solve images densities mus c = Raise ValueError)
  <-> ~~ broadcastable mus K P.
Proof.
rewrite /solve /decomposition_equation_resolution; split; last first.
  by move/negbTE => ->.
case: ifP => // _; case: ifP => // _; case: eqP => [e|_].
  by rewrite /np_solve; case: ifP.
rewrite /concentration_of_acc; case: ifP => // _.
by case: lstsq_loop.
Qed.

Lemma exact_solution_np (K : nat) (c : bool) (sh : spatial_shape)
    (images : 'M[rat]_(K, nvox sh)) (densities : 'rV[rat]_(K + c))
    (mus : ndarray2) :
  broadcastable mus K (K + c) -> (0 < K)%N ->
  system_2d_matrix K (K + c) mus c \in unitmx ->
  solve images densities mus c
  = Ok (scale_solution densities
          (vector_2d_matrix images c
           *m (invmx (system_2d_matrix K (K + c) mus c))^T)).
Proof.
move=> hb hK hu.
apply: (@exact_branch_np _ _ _ (erefl _)) => //.
by rewrite -mulmxA -trmx_mul mulmxV // trmx1 mulmx1.
Qed.

(** X4. With the volume-fraction row (K energies, K + 1 materials), an
    invertible system, at least one image and densities that are not zero,
    the maps divided back by density x 1000 sum to 1 at every voxel. *)
Theorem volume_fractions_sum_to_one (K : nat) (sh : spatial_shape)
    (images : 'M[rat]_(K, nvox sh)) (densities : 'rV[rat]_(K + true))
    (mus : ndarray2) :
  broadcastable mus K (K + true) -> (0 < K)%N ->
  system_2d_matrix K (K + true) mus true \in unitmx ->
  (forall m, densities 0 m != 0) ->
  exists2 maps,
    solve images densities mus true = Ok maps
    & forall v, \sum_m unscale densities maps m v = 1.
Proof.
move=> hb hK hu hd; rewrite exact_solution_np //; eexists; first by [].
move=> v; rewrite unscaleK //.
set X := _ *m _.
have hX : X *m (system_2d_matrix K (K + true) mus true)^T
          = vector_2d_matrix images true.
  by rewrite /X -mulmxA -trmx_mul mulmxV // trmx1 mulmx1.
have h1 : (X *m (system_2d_matrix K (K + true) mus true)^T)
            v (rshift K ord0) = 1.
  by rewrite hX /vector_2d_matrix mxE col_mxEd mxE.
rewrite -h1 [RHS]mxE; apply: eq_bigr => m _.
rewrite [LHS]mxE [X in _ * X]mxE /system_2d_matrix col_mxEd.
by rewrite [const_mx _ _ _]mxE mulr1.
Qed.


Lemma unit_lower_system (a : rat) :
  a != 0 ->
  system_2d_matrix 1 (1 + true)
    (Array2 (row_mx (a%:M : 'M[rat]_1) (0 : 'M[rat]_(1, true)))) true
  \in unitmx.
Proof.
move=> ha; rewrite /system_2d_matrix broadcast_to_Array2.
have -> : (const_mx 1 : 'M[rat]_(true, 1 + true))
          = row_mx (const_mx 1) (const_mx 1) by rewrite row_mx_const.
rewrite -/(block_mx _ _ _ _) unitmxE det_lblock det_scalar1 det_mx11 mxE.
by rewrite mulr1 unitfE.
Qed.

Lemma volume_fractions_sum_to_one_witness :
  let mus := Array2 (row_mx (2%:Q%:M : 'M[rat]_1) (0 : 'M[rat]_(1, true))) in
  exists2 maps,
    solve (ones 1 (nvox two_voxels)) (ones 1 (1 + true)) mus true = Ok maps
    & forall v, \sum_m unscale (ones 1 (1 + true)) maps m v = 1.
Proof.
apply: volume_fractions_sum_to_one => //; first exact: unit_lower_system.
by move=> m; rewrite mxE oner_eq0.
Defined.


Lemma row_vector_local (K : nat) (sh : spatial_shape)
    (images images' : 'M[rat]_(K, nvox sh)) (c : bool) (v : 'I_(nvox sh)) :
  (forall e, images e v = images' e v) ->
  row v (vector_2d_matrix images c) = row v (vector_2d_matrix images' c).
Proof.
move=> hv; apply/rowP => i; rewrite !mxE.
by case: splitP => j _; rewrite ?hv // !mxE.
Qed.

(** X5. The value of every map at a voxel depends on the images at that voxel
    only: two calls that succeed on images that agree at voxel v return
    maps that agree at v. *)
Theorem maps_are_voxelwise (K P : nat) (sh : spatial_shape)
    (images images' : 'M[rat]_(K, nvox sh)) (densities : 'rV[rat]_P)
    (mus : ndarray2) (c : bool) (maps maps' : 'M[rat]_(P, nvox sh))
    (v : 'I_(nvox sh)) :
  solve images densities mus c = Ok maps ->
  solve images' densities mus c = Ok maps' ->
  (forall e, images e v = images' e v) ->
  forall m, maps m v = maps' m v.
Proof.
move=> h1 h2 hv m; have hrow := row_vector_local c hv.
move: h1 h2; rewrite /solve /decomposition_equation_resolution.
case: ifP => // _; case: ifP => // _; case: eqP => [e|_].
  move: (system_2d_matrix _ _ _ _) => A.
  case: _ / e A densities maps maps' m => A d maps maps' m.
  rewrite !castmx_id /np_solve; case: ifP => // _ [<-] [<-].
  rewrite !mxE; congr (astype_float32 (_ * _ * _)).
  have : row v (vector_2d_matrix images c *m (invmx A)^T)
         = row v (vector_2d_matrix images' c *m (invmx A)^T).
    by rewrite !row_mul hrow.
  by move/rowP/(_ m); rewrite !mxE.
rewrite /concentration_of_acc; case: ifP => [/eqP P0|_].
  by have: (m < 0)%N by rewrite -[X in (_ < X)%N]P0.
have [hV|hV] := leqP (nvox sh) 1.
  rewrite /lstsq_loop foldl_step_None.
  set s := [seq _ | v <- enum _].
  have : (size s <= 1)%N by rewrite size_map size_enum_ord.
  by case: s => [|x [|y s]].
rewrite !lstsq_loopE // !stack_rows_lstsq => -[<-] [<-].
by rewrite !mxE hrow.
Qed.

Lemma unit_ones_system :
  system_2d_matrix 1 (1 + false) (Array2 (ones 1 1)) false \in unitmx.
Proof. by rewrite system_noconstraint1 unitmxE det_mx11 mxE unitr1. Qed.

Lemma maps_are_voxelwise_witness :
  let images : 'M[rat]_(1, nvox two_voxels) := ones 1 _ in
  let images' : 'M[rat]_(1, nvox two_voxels) :=
    \matrix_(e, w) (if w == ord0 then 1 else 5%:Q) in
  let a := system_2d_matrix 1 (1 + false) (Array2 (ones 1 1)) false in
  scale_solution (ones 1 (1 + false))
    (vector_2d_matrix images false *m (invmx a)^T) ord0 ord0
  = scale_solution (ones 1 (1 + false))
      (vector_2d_matrix images' false *m (invmx a)^T) ord0 ord0.
Proof.
move=> images images' a.
apply: (@maps_are_voxelwise 1 _ _ images images' (ones 1 (1 + false))
          (Array2 (ones 1 1)) false).
- by apply: exact_solution_np => //; exact: unit_ones_system.
- by apply: exact_solution_np => //; exact: unit_ones_system.
by move=> e; rewrite !mxE.
Defined.

End DecompositionMore.

Module LeastSquaresFacts.
Import Order.TTheory.
Import Decomposition DecompositionFacts Residual.

Lemma sqnorm_ge0 (n : nat) (r : 'rV[rat]_n) : 0 <= sqnorm r.
Proof.
rewrite /sqnorm mxE; apply: sumr_ge0 => i _.
by rewrite !mxE -expr2 sqr_ge0.
Qed.

Lemma dot_sym (n : nat) (u w : 'rV[rat]_n) :
  (u *m w^T) 0 0 = (w *m u^T) 0 0.
Proof.
by rewrite !mxE; apply: eq_bigr => i _; rewrite !mxE mulrC.
Qed.

Lemma sqnormD (n : nat) (u w : 'rV[rat]_n) :
  sqnorm (u + w) = sqnorm u + sqnorm w + 2%:Q * (u *m w^T) 0 0.
Proof.
rewrite /sqnorm.
have -> : (u + w) *m (u + w)^T
          = u *m u^T + w *m w^T + (u *m w^T + w *m u^T).
  by rewrite linearD /= mulmxDl !mulmxDr [w *m _ + _]addrC addrACA.
rewrite [LHS]mxE [X in X + _ = _]mxE [X in _ + X = _]mxE.
by rewrite (dot_sym w u) -mulr2n -mulr_natl.
Qed.

Lemma np_lstsq_minimises (m n : nat) (a : 'M[rat]_(m, n)) (b : 'rV[rat]_m)
    (y : 'rV[rat]_n) :
  residual a b (np_lstsq a b) <= residual a b y.
Proof.
rewrite /residual; set x := np_lstsq a b.
have -> : y *m a^T - b = (x *m a^T - b) + (y - x) *m a^T.
  by rewrite mulmxBl [RHS]addrC addrA subrK.
rewrite [X in _ <= X]sqnormD.
have -> : ((x *m a^T - b) *m ((y - x) *m a^T)^T) 0 0 = 0.
  rewrite trmx_mul trmxK mulmxA mulmxBl np_lstsq_normal subrr mul0mx.
  by rewrite mxE.
by rewrite mulr0 addr0 lerDl sqnorm_ge0.
Qed.


(** X6. On the least-squares branch (K + constraint different from P, two voxels
    or more, a matrix that fits, densities that are not zero) the maps
    divided back by density x 1000 minimise, at every voxel, the squared
    residual of the linear system among all candidate solutions. *)
Theorem least_squares_branch_minimises (K P : nat) (sh : spatial_shape)
    (images : 'M[rat]_(K, nvox sh)) (densities : 'rV[rat]_P)
    (mus : ndarray2) (c : bool) :
  broadcastable mus K P -> (0 < K)%N -> (K + c)%N != P ->
  (1 < nvox sh)%N -> (forall m, densities 0 m != 0) ->
  exists2 maps,
    solve images densities mus c = Ok maps
    & forall v y,
        residual (system_2d_matrix K P mus c)
                 (row v (vector_2d_matrix images c))
                 (row v (unscale densities maps)^T)
        <= residual (system_2d_matrix K P mus c)
                    (row v (vector_2d_matrix images c)) y.
Proof.
move=> hb hK hne hV hd; rewrite /solve lstsq_branch //.
eexists; first by [].
move=> v y; rewrite unscaleK // trmxK.
have -> : row v (lstsq_solution np_lstsq P images mus c)
          = np_lstsq (system_2d_matrix K P mus c)
                     (row v (vector_2d_matrix images c)).
  by apply/rowP => m; rewrite !mxE.
exact: np_lstsq_minimises.
Qed.

Lemma least_squares_branch_minimises_witness :
  exists2 maps,
    solve (ones 2 (nvox two_voxels)) (ones 1 1) (Array2 (ones 2 1)) false
    = Ok maps
    & forall v y,
        residual (system_2d_matrix 2 1 (Array2 (ones 2 1)) false)
                 (row v (vector_2d_matrix (ones 2 (nvox two_voxels)) false))
                 (row v (unscale (ones 1 1) maps)^T)
        <= residual (system_2d_matrix 2 1 (Array2 (ones 2 1)) false)
                    (row v (vector_2d_matrix (ones 2 (nvox two_voxels))
                                             false)) y.
Proof.
apply: least_squares_branch_minimises => // m.
by rewrite mxE oner_eq0.
Defined.

End LeastSquaresFacts.

Module AttenuationFacts.
Import Attenuation.

(** X7. The result of retrieve_material_and_energy_from_folder_name is either a
    material with an energy side, and then its marker is the first of the
    eight markers, in the order of the tests, that occurs in the folder
    name, or (None, None), and then none of the eight markers occurs; a
    material without a side, or a side without a material, is never
    returned. *)
Theorem folder_name_recognised (folder_name : string) :
  match retrieve_material_and_energy_from_folder_name folder_name with
  | (Some material, Some energy) =>
      contains (marker material energy) folder_name
      /\ find (String.eqb (marker material energy)) markers
         = find (fun mk => contains mk folder_name) markers
  | (None, None) => ~~ has (fun mk => contains mk folder_name) markers
  | _ => False
  end.
Proof.
rewrite /retrieve_material_and_energy_from_folder_name /markers /=.
by do 8![case: ifP => _ //].
Qed.
Lemma indices_dict_range (key : string) (i : nat) :
  indices_dict key = Some i -> (i <= 4)%N.
Proof.
by rewrite /indices_dict; do 10![case: ifP => _; first by case=> <-].
Qed.

(** X8. A K-edge material named water (or h2o) is not rejected: the column
    index (0 - 1) * 2 + 1 = -1 counts from the end of the line, so the call
    returns what it returns for gold, for every material and side. *)
Theorem water_kedge_reads_gold_columns
    (attenuation_material kedge_material above_or_below : string) :
  indices_dict (lower kedge_material) = Some 0%N ->
  get_attenuation_from_kedge attenuation_material kedge_material
    above_or_below
  = get_attenuation_from_kedge attenuation_material "gold" above_or_below.
Proof.
move=> hk; rewrite /get_attenuation_from_kedge hk.
case ha: (indices_dict (lower attenuation_material)) => [a|]; last first.
  by case: ifP.
have := indices_dict_range ha.
by case: ifP => _; case: a {ha} => [|[|[|[|[|a]]]]].
Qed.

Lemma water_kedge_reads_gold_columns_witness :
  get_attenuation_from_kedge "I" "Water" "above"
  = get_attenuation_from_kedge "I" "gold" "above".
Proof. exact: water_kedge_reads_gold_columns. Defined.

(** X9. The call raises TypeError when one of the two material names is not a
    key of the dictionary (whatever its case), and returns a coefficient of
    the table otherwise: no other exception, no index out of range. *)
Theorem attenuation_defined
    (attenuation_material kedge_material above_or_below : string) :
  match indices_dict (lower attenuation_material),
        indices_dict (lower kedge_material) return Prop with
  | Some _, Some _ =>
      is_ok (get_attenuation_from_kedge attenuation_material kedge_material
               above_or_below)
  | _, _ =>
      get_attenuation_from_kedge attenuation_material kedge_material
        above_or_below = Raise TypeError
  end.
Proof.
rewrite /get_attenuation_from_kedge.
case ha: (indices_dict (lower attenuation_material)) => [a|]; last first.
  by case: (indices_dict (lower kedge_material)) => [k|]; case: ifP.
case hk: (indices_dict (lower kedge_material)) => [k|]; last first.
  have := indices_dict_range ha.
  by case: ifP => _; case: a {ha} => [|[|[|[|[|a]]]]].
have := indices_dict_range ha; have := indices_dict_range hk.
by case: ifP => _; case: a {ha} => [|[|[|[|[|a]]]]] //;
   case: k {hk} => [|[|[|[|[|k]]]]].
Qed.


(** X10. For every K-edge element of the table (iodine, barium, gadolinium, gold)
    and every material, the coefficient above the edge is greater than the
    coefficient below it exactly when the material is the K-edge element
    itself; for every other material, water included, it is not. *)
Theorem attenuation_jumps_at_own_edge
    (attenuation_material kedge_material : string) (i j : nat) :
  indices_dict (lower attenuation_material) = Some i ->
  indices_dict (lower kedge_material) = Some j -> (0 < j)%N ->
  exists above below : float,
    [/\ get_attenuation_from_kedge attenuation_material kedge_material
          "above" = Ok above,
        get_attenuation_from_kedge attenuation_material kedge_material
          "below" = Ok below
      & (below <? above)%float = (i == j)].
Proof.
move=> hi hj j0; rewrite /get_attenuation_from_kedge hi hj.
have := indices_dict_range hi; have := indices_dict_range hj.
case: j j0 {hj} => [|[|[|[|[|j]]]]] // _ _;
  case: i {hi} => [|[|[|[|[|i]]]]] // _;
  by do 2!eexists; split; [reflexivity | reflexivity | vm_compute].
Qed.

Lemma attenuation_jumps_at_own_edge_witness :
  exists above below : float,
    [/\ get_attenuation_from_kedge "Gold" "Au" "above" = Ok above,
        get_attenuation_from_kedge "Gold" "Au" "below" = Ok below
      & (below <? above)%float = (4 == 4)%N].
Proof. exact: (@attenuation_jumps_at_own_edge "Gold" "Au" 4 4). Defined.

End AttenuationFacts.

(* ===================================================================== *)
(* Further properties of registration.py                                  *)
(* ===================================================================== *)

Module BlackSliceFacts.
Import Order.TTheory.
Import Registration RegistrationFacts BlackSlices.

Lemma black_before (image : image3d) (i : nat) :
  (i < leading_black image)%N -> mostly_zero (nth [::] image i).
Proof. by move=> /(before_find [::]) /negbFE. Qed.

Lemma not_black_at (image : image3d) :
  (leading_black image < size image)%N ->
  ~~ mostly_zero (nth [::] image (leading_black image)).
Proof. by rewrite -has_find => /(nth_find [::]). Qed.

Lemma front_loop_run (image : image3d) (fuel k : nat) :
  (0 < k)%N -> (k <= (leading_black image).+1)%N -> (k <= size image)%N ->
  (size image - k < fuel)%N ->
  front_loop image fuel k (nth [::] image k.-1) k%:Z
  = Some (Ok (minn (leading_black image).+1 (size image))).
Proof.
elim: fuel k => [|fuel ih] k // k0 kL kn hf.
rewrite /= ltz_nat.
move: kL; rewrite leq_eqVlt ltnS => /orP [/eqP ek|kL].
  have hL : (leading_black image < size image)%N by rewrite ek in kn.
  rewrite ek /= (negPf (not_black_at hL)) /=.
  by congr (Some (Ok _)); apply/esym/minn_idPl.
have hb : mostly_zero (nth [::] image k.-1).
  by apply: black_before; rewrite prednK.
rewrite hb /=; move: kn; rewrite leq_eqVlt => /orP [/eqP ek|kn].
  rewrite ek ltnn; congr (Some (Ok _)); apply/esym/minn_idPr.
  by rewrite -ek; apply: leqW.
rewrite kn /=.
have -> : k%:Z + 1 = k.+1 by rewrite intS addrC.
rewrite -[X in nth _ _ X]/(k.+1.-1); apply: ih => //.
by rewrite subnS; move: hf; rewrite ltnS; apply: leq_trans; rewrite ltn_predL subn_gt0.
Qed.

Lemma nth_from_end (image : image3d) (k : nat) :
  (0 < k)%N -> (k <= size image)%N ->
  nth [::] image (size image - k) = nth [::] (rev image) k.-1.
Proof.
by move=> k0 kn; rewrite nth_rev prednK // (leq_trans _ kn) // prednK.
Qed.

Lemma black_before_end (image : image3d) (i : nat) :
  (i < trailing_black image)%N -> mostly_zero (nth [::] (rev image) i).
Proof. by move=> /(before_find [::]) /negbFE. Qed.

Lemma not_black_at_end (image : image3d) :
  (trailing_black image < size image)%N ->
  ~~ mostly_zero (nth [::] (rev image) (trailing_black image)).
Proof. by rewrite -(size_rev image) -has_find => /(nth_find [::]). Qed.

Lemma getitem_from_end (image : image3d) (k : nat) :
  (k < size image)%N ->
  getitem image ((size image)%:Z - k.+1%:Z)
  = Ok (nth [::] image (size image - k.+1)).
Proof.
move=> kn; rewrite subzn // /getitem.
by rewrite ltn_subrL /= (leq_ltn_trans _ kn).
Qed.

Lemma bottom_loop_run (image : image3d) (fuel k : nat) :
  (0 < k)%N -> (k <= (trailing_black image).+1)%N -> (k <= size image)%N ->
  (size image - k < fuel)%N ->
  bottom_loop image fuel k (nth [::] image (size image - k))
              ((size image)%:Z - k.+1%:Z)
  = Some (Ok (minn (trailing_black image).+1 (size image))).
Proof.
elim: fuel k => [|fuel ih] k // k0 kT kn hf.
rewrite /= subr_ge0 lez_nat nth_from_end //.
move: kT; rewrite leq_eqVlt ltnS => /orP [/eqP ek|kT].
  have hT : (trailing_black image < size image)%N by rewrite ek in kn.
  rewrite ek /= (negPf (not_black_at_end hT)) /=.
  by congr (Some (Ok _)); apply/esym/minn_idPl.
have hb : mostly_zero (nth [::] (rev image) k.-1).
  by apply: black_before_end; rewrite prednK.
rewrite hb /=; move: kn; rewrite leq_eqVlt => /orP [/eqP ek|kn].
  rewrite ek ltnn; congr (Some (Ok _)); apply/esym/minn_idPr.
  by rewrite -ek; apply: leqW.
rewrite kn getitem_from_end //.
have -> : (size image)%:Z - k.+1%:Z - 1 = (size image)%:Z - k.+2%:Z.
  by rewrite -addrA -opprD [k.+2%:Z]intS [1 + _]addrC.
apply: ih => //.
by rewrite subnS; move: hf; rewrite ltnS; apply: leq_trans;
   rewrite ltn_predL subn_gt0.
Qed.


Lemma bind_ok (A B : Type) (a : A) (f : A -> option (result B)) :
  bind (Some (Ok a)) f = f a.
Proof. by []. Qed.

(** X11. On an image with at least one slice the function returns (it neither
    raises nor runs out of fuel), and each offset is 0 when the slice at
    that end is not mostly zero, and otherwise one more than the number of
    mostly-zero slices at that end, capped by the number of slices. *)
Theorem black_slices_count (image : image3d) :
  (0 < size image)%N ->
  count_the_needed_translation_for_black_slices image
  = Some (Ok (counted (size image) (leading_black image),
              counted (size image) (trailing_black image))).
Proof.
move=> n0.
rewrite /count_the_needed_translation_for_black_slices
        /count_the_needed_translation_for_black_slices_fuel.
have -> : getitem image 0 = Ok (nth [::] image 0) by rewrite /getitem /= n0.
rewrite bind_ok.
have -> : front_loop image (size image).+1 0 (nth [::] image 0) 0
          = Some (Ok (counted (size image) (leading_black image))).
  rewrite /= ltz_nat n0 andbT /counted.
  case: (posnP (leading_black image)) => [L0|L0].
    by have := not_black_at (image:=image); rewrite L0 => /(_ n0) /negPf ->.
  rewrite (black_before L0) add0r.
  by rewrite (@front_loop_run image _ 1) // subn1 ltn_predL.
rewrite bind_ok.
have -> : (size image)%:Z - 1 = (size image)%:Z - 1%:Z by [].
rewrite getitem_from_end // bind_ok.
have -> : bottom_loop image (size image).+1 0
            (nth [::] image (size image - 1)) ((size image)%:Z - 1%:Z)
          = Some (Ok (counted (size image) (trailing_black image))).
  rewrite /= subr_ge0 lez_nat n0 andbT /counted nth_from_end //=.
  case: (posnP (trailing_black image)) => [T0|T0].
    by have := not_black_at_end (image:=image); rewrite T0 => /(_ n0) /negPf ->.
  rewrite (black_before_end T0) getitem_from_end //.
  have -> : (size image)%:Z - 1%:Z - 1 = (size image)%:Z - 2%:Z.
    by rewrite -addrA -opprD.
  by rewrite (@bottom_loop_run image _ 1) // subn1 ltn_predL.
by rewrite bind_ok.
Qed.

Lemma black_slices_count_witness :
  count_the_needed_translation_for_black_slices
    [:: [:: 0; 0]; [:: 0; 0]; [:: 1; 1]; [:: 0; 1]; [:: 0; 0]]
  = Some (Ok (3%N, 2%N)).
Proof. exact: black_slices_count. Defined.

End BlackSliceFacts.

Module TrackingFacts.
Import Registration RegistrationFacts Tracking.

Lemma count_nth (T : Type) (x0 : T) (P : pred T) (s : seq T) :
  count (fun i => P (nth x0 s i)) (iota 0 (size s)) = count P s.
Proof. by rewrite -[in RHS](mkseq_nth x0 s) /mkseq count_map. Qed.

Lemma size_foreground (mask : mask2d) :
  size (foreground mask) = nb_pixels mask.
Proof.
rewrite /foreground /nb_pixels size_flatten /shape -map_comp.
rewrite -[in RHS](mkseq_nth [::] mask) /mkseq -map_comp.
congr sumn; apply: eq_map => r /=.
by rewrite size_map size_filter (count_nth false id).
Qed.

Lemma centroid_exists (mask : mask2d) :
  (1 <= nb_pixels mask)%N ->
  exists c, retrieve_throat_centroid mask = Ok c.
Proof.
rewrite -size_foreground /retrieve_throat_centroid /regionprops_label.
by case: (foreground mask) => // p l _; eexists.
Qed.

Lemma differences_rcons (l : seq (rat * rat * nat)) (y x : rat * rat * nat) :
  differences (rcons (rcons l y) x)
  = rcons (differences (rcons l y)) (step_vector y x).
Proof.
rewrite /differences; elim: l => [|a l ih] //.
case: l ih => [|b l] ih //.
by rewrite /= in ih *; rewrite ih.
Qed.

Lemma track_slice_step (img : seq mask2d) (l : seq (rat * rat * nat))
    (i : nat) :
  let d := differences l in
  let l' := rcons l (entry_of img i) in
  let d' := differences l' in
  track_slice img
    (Ok (Track l d [seq v.1.2 | v <- d] [seq v.2 | v <- d])) i
  = if (1 <= nb_pixels (nth [::] img i))%N
    then Ok (Track l' d' [seq v.1.2 | v <- d'] [seq v.2 | v <- d'])
    else Ok (Track l d [seq v.1.2 | v <- d] [seq v.2 | v <- d]).
Proof.
move=> d l' d'; rewrite /track_slice.
case: ifP => // hp; rewrite /d' /l' /d /entry_of.
have [c ->] := centroid_exists hp.
rewrite [centroid_list _]/= [vectors_list _]/= [list_of_ys _]/=
        [list_of_xs _]/=.
case/lastP: l {d l' d'} => [|l y] //.
rewrite !rev_rcons differences_rcons !map_rcons.
by case: c => c1 c2.
Qed.

Lemma track_slices (img : seq mask2d) (s : seq nat)
    (l : seq (rat * rat * nat)) :
  let d := differences l in
  let l' := l ++ [seq entry_of img i
                 | i <- s & (1 <= nb_pixels (nth [::] img i))%N] in
  let d' := differences l' in
  foldl (track_slice img)
    (Ok (Track l d [seq v.1.2 | v <- d] [seq v.2 | v <- d])) s
  = Ok (Track l' d' [seq v.1.2 | v <- d'] [seq v.2 | v <- d']).
Proof.
elim: s l => [|i s ih] l; first by rewrite /= cats0.
move=> d l' d'; rewrite /d' /l' /d.
rewrite -[foldl _ _ (i :: s)]/(foldl _ (track_slice img _ i) s).
rewrite track_slice_step [filter _ _]/=; case: ifP => hp; last exact: ih.
by rewrite ih [map _ _]/= cat_rcons.
Qed.

Lemma size_differences (l : seq (rat * rat * nat)) :
  size (differences l) = (size l).-1.
Proof.
rewrite /differences size_map size_zip size_behead.
by apply/minn_idPr; exact: leq_pred.
Qed.

Lemma entry_index (img : seq mask2d) (s : seq nat) :
  [seq c.2 | c <- [seq entry_of img i | i <- s]] = s.
Proof.
rewrite -map_comp -[RHS]map_id; apply: eq_map => i /=.
by rewrite /entry_of; case: retrieve_throat_centroid.
Qed.

Lemma differences_forward (l : seq (rat * rat * nat)) :
  sorted ltn [seq c.2 | c <- l] ->
  all (fun v : rat * rat * rat => 1 <= v.1.1) (differences l).
Proof.
rewrite /differences; elim: l => [|a l ih] //.
case: l ih => [|b l] ih //.
rewrite [sorted _ _]/= => /andP [hab hs].
rewrite [zip _ _]/= [map _ _]/= [all _ _]/= ih // andbT.
rewrite /step_vector.
rewrite -[X in 1 <= X]/(b.2%:Q - a.2%:Q) -natrB; first exact: ltnW.
by rewrite (ler_nat _ 1) subn_gt0.
Qed.

Lemma tracked (img : seq mask2d) :
  let l := [seq entry_of img i | i <- throat_slices img] in
  let d := differences l in
  foldl (track_slice img) (Ok (Track [::] [::] [::] [::]))
        (iota 0 (size img))
  = Ok (Track l d [seq v.1.2 | v <- d] [seq v.2 | v <- d]).
Proof. exact: (track_slices img (iota 0 (size img)) [::]). Qed.

Lemma list_getitem_nth (A : Type) (x0 : A) (s : seq A) (n : nat) :
  (n < size s)%N -> list_getitem s n = Ok (nth x0 s n).
Proof.
by move=> h; rewrite /list_getitem (nth_map x0).
Qed.

Lemma list_getitem_nil (A : Type) (n : nat) :
  list_getitem ([::] : seq A) n = Raise IndexError.
Proof. by rewrite /list_getitem nth_nil. Qed.

(** X12. With fewer than two slices that hold a pixel of the throat there is no
    vector between centroids, the sorted lists are empty, and the median
    list_of_ys[len(list_of_ys) // 2] raises IndexError. *)
Theorem tracking_needs_two_slices (throat_mask_img : seq mask2d) :
  (size (throat_slices throat_mask_img) < 2)%N ->
  throat_tracking throat_mask_img = Raise IndexError.
Proof.
move=> h; rewrite /throat_tracking tracked.
rewrite [list_of_ys _]/= [list_of_xs _]/=.
have -> : differences [seq entry_of throat_mask_img i
                      | i <- throat_slices throat_mask_img] = [::].
  apply: size0nil; rewrite size_differences size_map.
  by case: (size _) h => [|[|n]].
by [].
Qed.

Lemma tracking_needs_two_slices_witness :
  throat_tracking [:: [:: [:: true; false]]; [:: [:: false; false]]]
  = Raise IndexError.
Proof. by apply: tracking_needs_two_slices. Defined.

(** X13. With two or more slices that hold a pixel of the throat the tracking
    succeeds: centroid_list has one entry for each such slice, in order,
    vectors_list one vector for each pair of consecutive entries, every
    vector advances by one slice or more, and total_vector is
    [1, y, x] for a y and an x read in the vectors. *)
Theorem tracking_vectors (throat_mask_img : seq mask2d) :
  (1 < size (throat_slices throat_mask_img))%N ->
  exists cl vl tv,
    [/\ throat_tracking throat_mask_img = Ok (cl, vl, tv),
        [seq c.2 | c <- cl] = throat_slices throat_mask_img,
        vl = differences cl,
        all (fun v : rat * rat * rat => 1 <= v.1.1) vl
      & [/\ tv.1.1 = 1, tv.1.2 \in [seq v.1.2 | v <- vl]
          & tv.2 \in [seq v.2 | v <- vl]]].
Proof.
move=> h; rewrite /throat_tracking tracked.
set cl := [seq entry_of _ i | i <- _].
set d := differences cl.
rewrite [list_of_ys _]/= [list_of_xs _]/= [centroid_list _]/=
        [vectors_list _]/=.
have hd : (0 < size d)%N.
  by rewrite size_differences size_map; case: (size _) h => [|[|n]].
have hm (s : seq rat) : (0 < size s)%N ->
    (size (list_sort s) %/ 2 < size (list_sort s))%N.
  by rewrite /list_sort size_sort => hs; rewrite ltn_Pdiv.
have hy : (0 < size [seq v.1.2 | v <- d])%N by rewrite size_map.
have hx : (0 < size [seq v.2 | v <- d])%N by rewrite size_map.
rewrite (list_getitem_nth (0 : rat) (hm _ hy)).
rewrite (list_getitem_nth (0 : rat) (hm _ hx)).
exists cl, d,
  (1, nth 0 (list_sort [seq v.1.2 | v <- d])
            (size (list_sort [seq v.1.2 | v <- d]) %/ 2),
   nth 0 (list_sort [seq v.2 | v <- d])
         (size (list_sort [seq v.2 | v <- d]) %/ 2)).
split => //.
- exact: entry_index.
- apply: differences_forward; rewrite entry_index /throat_slices.
  by apply: sorted_filter; [exact: ltn_trans | exact: iota_ltn_sorted].
- split=> //.
  + rewrite -(mem_sort (fun a b : rat => (a <= b)%R)).
    exact: (mem_nth 0 (hm _ hy)).
  + rewrite -(mem_sort (fun a b : rat => (a <= b)%R)).
    exact: (mem_nth 0 (hm _ hx)).
Qed.

Lemma tracking_vectors_witness :
  exists cl vl tv,
    [/\ throat_tracking [:: [:: [:: true; false]]; [:: [:: false; false]];
                            [:: [:: false; true]]; [:: [:: true; true]]]
        = Ok (cl, vl, tv),
        [seq c.2 | c <- cl] = [:: 0; 2; 3]%N,
        vl = differences cl,
        all (fun v : rat * rat * rat => 1 <= v.1.1) vl
      & [/\ tv.1.1 = 1, tv.1.2 \in [seq v.1.2 | v <- vl]
          & tv.2 \in [seq v.2 | v <- vl]]].
Proof.
exact: (@tracking_vectors [:: [:: [:: true; false]]; [:: [:: false; false]];
                            [:: [:: false; true]]; [:: [:: true; true]]]
          isT).
Defined.

End TrackingFacts.

Module BoxFacts.
Import Order.TTheory.
Import Registration RegistrationFacts.

Lemma python_int_le (x : rat) (n : int) : x <= n%:~R -> python_int x <= n.
Proof.
rewrite /python_int; case: ifP => _ hx; last by rewrite ceil_le_int.
by rewrite -(ler_int rat) (le_trans (floor_le _)).
Qed.

Lemma python_int_ge (x : rat) (n : int) : n%:~R <= x -> n <= python_int x.
Proof.
rewrite /python_int; case: ifP => _ hx; first by rewrite floor_ge_int.
by rewrite -(ler_int rat) (le_trans hx) // ceil_ge.
Qed.

(** X14. Recentering never shrinks the box: the lower x-bound can only decrease,
    the upper x-bound can only increase, and the y-bounds are kept. *)
Theorem recenter_never_shrinks (throat_x : rat) (b : bounding_box) :
  [/\ bb0 (recenter throat_x b) <= bb0 b,
      bb1 b <= bb1 (recenter throat_x b),
      bb2 (recenter throat_x b) = bb2 b
    & bb3 (recenter throat_x b) = bb3 b].
Proof.
rewrite /recenter; case: ifP => [hlt|/negbT hn]; split=> //=.
  apply: python_int_ge; rewrite mulr_natr mulr2n addrA subrKC.
  by apply: ltW; rewrite -ltrBlDl.
rewrite -leNgt in hn; apply: python_int_le.
rewrite mulr_natr mulr2n opprD addrA subKr.
by rewrite lerBlDr -lerBlDl.
Qed.


(** X15. For an integer throat x-coordinate the recentered box is centered on
    the throat, and recentering it again changes nothing. *)
Theorem recenter_integer_centers (z : int) (b : bounding_box) :
  centered z%:~R (recenter z%:~R b)
  /\ recenter z%:~R (recenter z%:~R b) = recenter z%:~R b.
Proof.
have hc : centered z%:~R (recenter z%:~R b).
  rewrite recenter_integer /centered -!intrB eqr_int.
  by case: ifP => _ /=; apply/eqP; ring.
split=> //; move: (recenter _ b) hc => [b0 b1 b2 b3].
rewrite recenter_integer /centered -!intrB eqr_int /= => /eqP hc.
by rewrite -hc ltxx; congr Box; move: hc; lra.
Qed.

(** X16. Whatever the throat x-coordinate, the recentered box is centered on it
    up to the truncation of int(): the two half widths differ by less than
    one. *)
Theorem recenter_centers_within_one (throat_x : rat) (b : bounding_box) :
  let b' := recenter throat_x b in
  `|(throat_x - (bb0 b')%:~R) - ((bb1 b')%:~R - throat_x)| < 1.
Proof.
have trunc_near (x : rat) : `|x - (python_int x)%:~R| < 1.
  rewrite /python_int; case: ifP => _.
    have /andP [h1 h2] := floor_itv x.
    by rewrite ltr_norml; apply/andP; split; move: h1 h2; rewrite intrD; lra.
  have /andP [h1 h2] := ceil_itv x.
  by rewrite ltr_norml; apply/andP; split; move: h1 h2; rewrite intrB; lra.
rewrite /recenter; case: ifP => _ /=.
  have := trunc_near ((bb0 b)%:~R + (throat_x - (bb0 b)%:~R) * 2%:Q).
  by rewrite !ltr_norml => /andP [h1 h2]; apply/andP; split; lra.
have := trunc_near ((bb1 b)%:~R - ((bb1 b)%:~R - throat_x) * 2%:Q).
by rewrite !ltr_norml => /andP [h1 h2]; apply/andP; split; lra.
Qed.

End BoxFacts.

Module SearchMore.
Import Order.TTheory.
Import Registration RegistrationFacts.

Lemma zip_same (T : Type) (s : seq T) : zip s s = [seq (x, x) | x <- s].
Proof. by elim: s => //= x s ->. Qed.

(** X17. When the two halves mirror each other exactly (same image values, same
    skull values), the asymmetry score is 0 as soon as one voxel of the
    half image is not zero; when every voxel is zero the division raises
    ZeroDivisionError. *)
Theorem mirrored_halves_score (half_image half_skull : seq rat) :
  normalized_value (Halves half_image half_image half_skull half_skull)
  = if has (fun x => x != 0) half_image then Ok 0
    else Raise ZeroDivisionError.
Proof.
rewrite /normalized_value /disagreement /=.
set sk := zero_where _ _.
have -> : count (fun x : rat => x != 0) [seq p.1 - p.2 | p <- zip sk sk] = 0%N.
  rewrite zip_same -map_comp; apply/eqP; rewrite -leqn0 leqNgt -has_count.
  by apply/hasPn => x /mapP [y _ ->] /=; rewrite subrr eqxx.
have -> : count (pred1 0)
            [seq (if (p.1 == 0) || (p.2 == 0) then 1 else 0 : rat)
            | p <- zip half_image half_image]
          = count (fun x => x != 0) half_image.
  rewrite zip_same -map_comp count_map; apply: eq_count => x /=.
  by rewrite orbb; case: (x == 0); rewrite /= ?oner_eq0 ?eqxx.
rewrite has_count lt0n; case: (count _ _ == 0%N) => //=.
by rewrite mul0r.
Qed.

Lemma normalized_value_raises (hs : half_arrays) (e : exn) :
  normalized_value hs = Raise e -> e = ZeroDivisionError.
Proof.
by rewrite /normalized_value; case: disagreement => c n; case: ifP => // _ [].
Qed.

Section SearchErrors.

Variable rotate_crop_split :
  bounding_box -> image3d -> image3d -> float -> half_arrays.
Variables (box : bounding_box) (image_to_study skull_to_study : image3d).
Variable N : nat.

Lemma search_step_raise (e : exn) (s : seq nat) :
  foldl (search_step rotate_crop_split box image_to_study skull_to_study N)
        (Raise e) s = Raise e.
Proof. by elim: s. Qed.

Lemma search_reaches_error (j : nat) (s : seq nat) (st : result search_state) :
  (forall e, st = Raise e -> e = ZeroDivisionError) ->
  normalized_value
    (rotate_crop_split box image_to_study skull_to_study (angle_of N j))
  = Raise ZeroDivisionError ->
  j \in s ->
  foldl (search_step rotate_crop_split box image_to_study skull_to_study N)
        st s = Raise ZeroDivisionError.
Proof.
move=> hst hj; elim: s st hst => [|i s ih] st hst //.
rewrite inE /=; case: st hst => [st|e] hst; last first.
  by move=> _; rewrite search_step_raise (hst e).
case/orP => [/eqP <-|js].
  by rewrite [search_step _ _ _ _ _ _ j]/search_step hj search_step_raise.
apply: ih => // e; rewrite /search_step.
case hv: normalized_value => [value|e']; first by case: ifP.
by case=> <-; apply: normalized_value_raises hv.
Qed.

End SearchErrors.

(** X18. If one of the 2N candidates has no voxel that is non-zero in both half
    images (its score is a division by zero), the search raises
    ZeroDivisionError, whatever the scores of the other candidates. *)
Theorem symmetry_search_division_by_zero
    (rotate_crop_split :
       bounding_box -> image3d -> image3d -> float -> half_arrays)
    (box : bounding_box) (image_to_study skull_to_study : image3d)
    (N j : nat) :
  (j < N * 2)%N ->
  normalized_value
    (rotate_crop_split box image_to_study skull_to_study (angle_of N j))
  = Raise ZeroDivisionError ->
  symmetry_search rotate_crop_split box image_to_study skull_to_study N
  = Raise ZeroDivisionError.
Proof.
move=> hj hv; apply: search_reaches_error hv _ => //.
by rewrite mem_iota.
Qed.

Lemma symmetry_search_division_by_zero_witness :
  symmetry_search no_split (Box 0 10 0 10) [::] [::] 1
  = Raise ZeroDivisionError.
Proof. by apply: (@symmetry_search_division_by_zero _ _ _ _ 1 0). Defined.

(** X19. When the first rotated volume has as many counted slices in front as at
    the back, no correction is applied: the second pass resamples with the
    same translation and both offsets are 0. *)
Theorem balanced_first_pass (compute_3d_rotation : rat -> image3d)
    (n : nat) :
  count_the_needed_translation_for_black_slices (compute_3d_rotation 0)
  = Some (Ok (n, n)) ->
  straight_throat_rotation_offsets compute_3d_rotation = Some (Ok (0, 0)).
Proof.
move=> h; rewrite /straight_throat_rotation_offsets h /=.
by rewrite subrr mul0r h /= subrr mul0r addr0.
Qed.

Lemma balanced_first_pass_witness :
  straight_throat_rotation_offsets
    (fun _ => [:: [:: 0; 0]; [:: 1; 1]; [:: 0; 0]])
  = Some (Ok (0, 0)).
Proof. by apply: (@balanced_first_pass _ 2). Defined.

End SearchMore.

(* ===================================================================== *)
(* Properties of pagailleIO.py                                            *)
(* ===================================================================== *)

Module PagailleIOFacts.
Import PagailleIO.

Lemma append_nil (s : string) : String.append s EmptyString = s.
Proof. by elim: s => //= c s ->. Qed.

Lemma append_assoc (a b c : string) :
  String.append (String.append a b) c = String.append a (String.append b c).
Proof. by elim: a => //= x a ->. Qed.

Lemma str_split_size (sep : ascii) (s : string) :
  (0 < size (str_split sep s))%N.
Proof.
elim: s => //= c s; case: Ascii.eqb => //.
by case: (str_split sep s).
Qed.

Lemma join_from (sep : ascii) (acc : string) (l : seq string) :
  foldl (fun new_path elt =>
           String.append new_path
             (String.append elt (String sep EmptyString))) acc l
  = String.append acc
      (foldl (fun new_path elt =>
                String.append new_path
                  (String.append elt (String sep EmptyString)))
             EmptyString l).
Proof.
elim: l acc => [|x l ih] acc /=; first by rewrite append_nil.
by rewrite ih [in RHS]ih append_assoc.
Qed.

Lemma but_last_cons (A : Type) (x y : A) (l : seq A) :
  but_last (x :: y :: l) = x :: but_last (y :: l).
Proof. by []. Qed.

Lemma join_cons (sep : ascii) (e x : string) (l : seq string) :
  String.append
    (foldl (fun new_path elt =>
              String.append new_path
                (String.append elt (String sep EmptyString)))
           EmptyString (but_last (e :: x :: l)))
    (last_piece (e :: x :: l))
  = String.append e
      (String sep
        (String.append
          (foldl (fun new_path elt =>
                    String.append new_path
                      (String.append elt (String sep EmptyString)))
                 EmptyString (but_last (x :: l)))
          (last_piece (x :: l)))).
Proof.
rewrite but_last_cons -[last_piece (e :: _)]/(last_piece (x :: l)).
move: (but_last _) (last_piece _) => r p.
rewrite -[foldl _ _ (e :: r)]/(foldl _ (String.append e (String sep EmptyString)) r).
rewrite join_from !append_assoc.
by [].
Qed.

Lemma split_join (sep : ascii) (s : string) :
  String.append
    (foldl (fun new_path elt =>
              String.append new_path
                (String.append elt (String sep EmptyString)))
           EmptyString (but_last (str_split sep s)))
    (last_piece (str_split sep s)) = s.
Proof.
elim: s => // c s ih; rewrite [str_split _ _]/=.
have := str_split_size sep s.
case: (Ascii.eqb_spec c sep) => [->|_];
  case: (str_split sep s) ih => // x l ih _.
- by rewrite join_cons ih.
- case: l ih => [|y l] ih.
  + by rewrite /but_last /last_piece /= in ih *; rewrite ih.
  + by rewrite join_cons in ih; rewrite join_cons -ih.
Qed.

Lemma last_piece_clean (sep : ascii) (s : string) :
  ~~ occurs sep (last_piece (str_split sep s)).
Proof.
elim: s => // c s ih; rewrite [str_split _ _]/=.
have := str_split_size sep s.
case e: (Ascii.eqb c sep); case: (str_split sep s) ih => // x l ih _.
case: l ih => [|y l] ih; last exact: ih.
by rewrite /last_piece /= e.
Qed.

Lemma split_none (sep : ascii) (s : string) :
  (1 < size (str_split sep s))%N = occurs sep s.
Proof.
elim: s => // c s ih; rewrite [str_split _ _]/= [occurs _ _]/=.
have := str_split_size sep s.
case: (Ascii.eqb c sep) => /=; first by case: (str_split sep s).
by case: (str_split sep s) ih => // x l ih _.
Qed.

(** X20. remove_filename_in_path drops no character of the directory part: the
    path is the result followed by a file name, and the file name holds no
    backslash, nor a slash when the path holds no backslash. *)
Theorem path_is_directory_then_name (path : string) :
  exists name,
    [/\ path = String.append (remove_filename_in_path path) name,
        ~~ occurs backslash name
      & ~~ occurs backslash path -> ~~ occurs slash name].
Proof.
exists (last_piece (str_split (splitter_of path) path)); split.
- by rewrite /remove_filename_in_path split_join.
- rewrite /splitter_of; case: ifP => h; first exact: last_piece_clean.
  rewrite split_none in h.
  have := split_join slash path.
  move: (foldl _ _ _) (last_piece _) => a b hp.
  apply: contraFN h; rewrite -hp.
  by elim: a {hp} => //= x a ih hb; rewrite ih ?orbT.
- rewrite -split_none /splitter_of => /negbTE ->.
  exact: last_piece_clean.
Qed.

Lemma occurs_append (c : ascii) (a b : string) :
  occurs c (String.append a b) = occurs c a || occurs c b.
Proof. by elim: a => //= x a ->; rewrite orbA. Qed.

Lemma join_step (sep : ascii) (x : string) (l : seq string) :
  foldl (fun new_path elt =>
           String.append new_path
             (String.append elt (String sep EmptyString)))
        EmptyString (x :: l)
  = String.append x
      (String sep
         (foldl (fun new_path elt =>
                   String.append new_path
                     (String.append elt (String sep EmptyString)))
                EmptyString l)).
Proof.
rewrite -[foldl _ _ (x :: l)]/(foldl _ (String.append x (String sep EmptyString)) l).
by rewrite join_from append_assoc.
Qed.

Lemma pieces_clean (sep : ascii) (s : string) :
  all (fun p => ~~ occurs sep p) (str_split sep s).
Proof.
elim: s => // c s ih; rewrite [str_split _ _]/=.
have := str_split_size sep s.
case e: (Ascii.eqb c sep); first by [].
case: (str_split sep s) ih => // x l /= /andP [hx hl] _.
by rewrite e hx hl.
Qed.

Lemma split_piece (sep : ascii) (x t : string) :
  ~~ occurs sep x ->
  str_split sep (String.append x (String sep t)) = x :: str_split sep t.
Proof.
elim: x => [_|c x ih] /=; first by rewrite Ascii.eqb_refl.
by rewrite negb_or => /andP [/negbTE -> hx]; rewrite ih.
Qed.

Lemma split_joined (sep : ascii) (l : seq string) :
  all (fun p => ~~ occurs sep p) l ->
  str_split sep
    (foldl (fun new_path elt =>
              String.append new_path
                (String.append elt (String sep EmptyString)))
           EmptyString l)
  = rcons l EmptyString.
Proof.
elim: l => // x l ih /andP [hx hl].
by rewrite join_step split_piece // ih.
Qed.

Lemma but_last_rcons (A : Type) (l : seq A) (x : A) :
  but_last (rcons l x) = l.
Proof. by rewrite /but_last size_rcons -cats1 take_size_cat. Qed.

Lemma but_last_clean (sep : ascii) (s : string) :
  all (fun p => ~~ occurs sep p) (but_last (str_split sep s)).
Proof.
have := pieces_clean sep s.
rewrite -{1}(cat_take_drop (size (str_split sep s)).-1 (str_split sep s)).
by rewrite all_cat => /andP [].
Qed.

Lemma size_but_last (A : Type) (l : seq A) : size (but_last l) = (size l).-1.
Proof. by rewrite /but_last size_take; case: (size l) => // n; rewrite ltnSn. Qed.

Lemma splitter_kept (path : string) :
  splitter_of (remove_filename_in_path path) = splitter_of path.
Proof.
rewrite /splitter_of !split_none.
case h: (occurs backslash path).
- rewrite /remove_filename_in_path /splitter_of split_none h.
  have : (0 < size (but_last (str_split backslash path)))%N.
    by rewrite size_but_last -subn1 subn_gt0 split_none.
  case: (but_last _) => // x l _.
  by rewrite join_step occurs_append /= ?Ascii.eqb_refl ?orbT.
- have := split_join (splitter_of path) path.
  rewrite -/(remove_filename_in_path path) => hp.
  case hr: (occurs backslash (remove_filename_in_path path)) => //.
  by rewrite -hp occurs_append hr in h.
Qed.

(** X21. remove_filename_in_path is idempotent: its result is a directory path
    from which nothing more is removed. *)
Theorem remove_filename_idempotent (path : string) :
  remove_filename_in_path (remove_filename_in_path path)
  = remove_filename_in_path path.
Proof.
have hr : remove_filename_in_path path
    = foldl (fun new_path elt =>
               String.append new_path
                 (String.append elt
                    (String (splitter_of path) EmptyString)))
            EmptyString (but_last (str_split (splitter_of path) path)) by [].
rewrite {1}/remove_filename_in_path splitter_kept [in LHS]hr.
by rewrite (split_joined (but_last_clean _ _)) but_last_rcons.
Qed.

(** X22. The result is the empty string exactly when the path holds neither a
    slash nor a backslash: a bare file name has no directory part. *)
Theorem no_directory_iff_no_separator (path : string) :
  remove_filename_in_path path = EmptyString
  <-> ~~ occurs slash path && ~~ occurs backslash path.
Proof.
have hne (sep : ascii) (l : seq string) :
    foldl (fun new_path elt =>
             String.append new_path
               (String.append elt (String sep EmptyString)))
          EmptyString l = EmptyString -> l = [::].
  case: l => // x l; rewrite join_step => h.
  have : occurs sep EmptyString by rewrite -h occurs_append /= Ascii.eqb_refl orbT.
  by [].
have hsz (sep : ascii) :
    (but_last (str_split sep path) = [::]) <-> ~~ occurs sep path.
  rewrite -split_none; split.
    by move/(congr1 size); rewrite size_but_last /=; case: (size _) => [|[|n]].
  move=> h; apply: size0nil; rewrite size_but_last.
  by case: (size _) h => [|[|n]].
rewrite /remove_filename_in_path /splitter_of split_none.
case h: (occurs backslash path); rewrite ?andbF ?andbT.
- split=> // /hne /hsz; by rewrite h.
- split; first by move/hne/hsz.
  by move/hsz => ->.
Qed.

End PagailleIOFacts.

Module Tiff16Facts.
Import Order.TTheory Tiff16.

Lemma amin_le (x : rat) (xs : seq rat) (v : rat) :
  v \in x :: xs -> amin x xs <= v.
Proof.
rewrite /amin; elim: xs => [|a xs ih]; first by rewrite inE => /eqP ->.
rewrite !inE [foldr _ _ _]/= ge_min => /or3P [h|/eqP ->|h].
- by rewrite ih ?orbT // inE h.
- by rewrite lexx.
- by rewrite ih ?orbT // inE h orbT.
Qed.

Lemma amax_ge (x : rat) (xs : seq rat) (v : rat) :
  v \in x :: xs -> v <= amax x xs.
Proof.
rewrite /amax; elim: xs => [|a xs ih]; first by rewrite inE => /eqP ->.
rewrite !inE [foldr _ _ _]/= le_max => /or3P [h|/eqP ->|h].
- by rewrite ih ?orbT // inE h.
- by rewrite lexx.
- by rewrite ih ?orbT // inE h orbT.
Qed.

Lemma amax_in (x : rat) (xs : seq rat) : amax x xs \in x :: xs.
Proof.
rewrite /amax; elim: xs => [|a xs ih]; first by rewrite mem_head.
rewrite [foldr _ _ _]/= /Order.max; case: ifP => _.
  by move: ih; rewrite !inE => /orP [->|->]; rewrite ?orbT.
by rewrite !inE eqxx orbT.
Qed.

Lemma amin_in (x : rat) (xs : seq rat) : amin x xs \in x :: xs.
Proof.
rewrite /amin; elim: xs => [|a xs ih]; first by rewrite mem_head.
rewrite [foldr _ _ _]/= /Order.min; case: ifP => _.
  by rewrite !inE eqxx orbT.
by move: ih; rewrite !inE => /orP [->|->]; rewrite ?orbT.
Qed.

Lemma c65536_gt0 : 0 < c65536.
Proof. by rewrite /c65536 exprn_gt0. Qed.

(** X23. With the default minIm = maxIm = 0 and an image that is not constant,
    every pixel that holds the maximum of the image is scaled to 65536: it
    is not above 65635, so it is not capped to 65535, and the value handed
    to the conversion to uint16 is above the largest value of uint16. *)
Theorem brightest_pixel_exceeds_uint16 (x : rat) (xs : seq rat) (i : nat) :
  amin x xs != amax x xs ->
  (i < size (x :: xs))%N ->
  nth 0 (x :: xs) i = amax x xs ->
  exists stored,
    [/\ datatoStore (x :: xs) 0 0 = Some (Ok stored),
        size stored = size (x :: xs),
        nth 0 stored i = c65536
      & c65535 < nth 0 stored i].
Proof.
move=> hne hi hv; rewrite /datatoStore eqxx.
have hd : amax x xs - amin x xs != 0 by rewrite subr_eq0 eq_sym.
rewrite (negbTE hd) /c65635 /c65535.
move: c65536 c65536_gt0 => c hc.
have h99 : 0 <= (99%:Q : rat) by rewrite ler0z.
have hval : nth 0 [seq (if v < 0 then 0 else v)
                  | v <- [seq (if c + 99%:Q < v then c - 1 else v)
                         | v <- [seq c * (v - amin x xs)
                                     / (amax x xs - amin x xs)
                                | v <- x :: xs]]] i = c.
  rewrite (nth_map 0); first by rewrite !size_map.
  rewrite (nth_map 0); first by rewrite size_map.
  rewrite (nth_map 0 _ _ hi) hv.
  rewrite -mulrA (divff hd) mulr1.
  have -> : (c + 99%:Q < c) = false by rewrite gtrDl ltNge h99.
  by have -> : (c < 0) = false by rewrite ltNge (ltW hc).
eexists; split; first by reflexivity.
- by rewrite !size_map.
- exact: hval.
- by rewrite hval ltrBlDr ltrDl.
Qed.

Lemma brightest_pixel_exceeds_uint16_witness :
  exists stored,
    [/\ datatoStore [:: 1; 3; 2] 0 0 = Some (Ok stored),
        size stored = 3%N,
        nth 0 stored 1 = c65536
      & c65535 < nth 0 stored 1].
Proof.
by apply: (@brightest_pixel_exceeds_uint16 1 [:: 3; 2] 1).
Defined.

(** X24. Whatever the bounds, when the scaling is defined every value handed to
    the conversion to uint16 lies between 0 and 65635: the cap leaves the
    values between 65535 and 65635 as they are. *)
Theorem stored_values_range (data : seq rat) (minIm maxIm : rat)
    (stored : seq rat) :
  datatoStore data minIm maxIm = Some (Ok stored) ->
  all (fun v => (0 <= v) && (v <= c65635)) stored.
Proof.
rewrite /datatoStore /c65635 /c65535.
have : 1 <= c65536 by rewrite /c65536 exprn_ege1 // (ler_nat _ 1 2).
move: c65536 => c hc.
set bounds := (X in match X with Ok _ => _ | Raise _ => _ end).
case: bounds => [[lo hi]|e] //; case: ifP => // _ [<-].
have h99 : 0 <= (99%:Q : rat) by rewrite ler0z.
have hc0 : 0 <= c := le_trans ler01 hc.
have h0 : 0 <= c + 99%:Q := addr_ge0 hc0 h99.
have hc1 : 0 <= c - 1 by rewrite subr_ge0.
have h1 : c - 1 <= c + 99%:Q.
  by rewrite lerD2l (le_trans _ h99) // oppr_le0 ler01.
rewrite !all_map; apply/allP => v _.
rewrite [preim _ _ _]/=; cbv beta.
move: (c * (v - lo) / (hi - lo)) => w.
case: (ltP (c + 99%:Q) w) => hw.
  by rewrite ltNge hc1 [~~ true]/=; cbv iota; rewrite hc1 h1.
case: (ltP w 0) => hz; first by rewrite lexx h0.
by rewrite hz hw.
Qed.

Lemma stored_values_range_witness :
  all (fun v => (0 <= v) && (v <= c65635))
      [seq (if v < 0 then 0 else v)
      | v <- [seq (if c65635 < v then c65535 else v)
             | v <- [seq c65536 * (v - 1) / (3%:Q - 1)
                    | v <- [:: 1; 3%:Q; 2%:Q]]]].
Proof.
apply: (@stored_values_range [:: 1; 3%:Q; 2%:Q] 1 3%:Q).
rewrite /datatoStore.
have -> : (1 == 3%:Q :> rat) = false by [].
have -> : (3%:Q - 1 == 0 :> rat) = false by [].
by [].
Defined.

End Tiff16Facts.
